(** * Sister-scanning (SiScan) over triplets: a shallow embedding of
    [scripts/siscan.py] and the properties of its specification.

    Arrays are lists (a 2-D numpy array is the list of its rows), Python
    and numpy integers are [Z], characters are [ascii], names are
    [string].  A Python exception is [None] in the option monad.  The two
    pseudo-random generators the module seeds ([random] and [numpy.random])
    are oracles threaded through the code as explicit state. *)

From Stdlib Require Import ZArith QArith Qabs Lia Lqa Ascii String.
From stdpp Require Import base option list strings gmap.

Local Open Scope Z_scope.

(** ** Python and numpy primitives *)

(** [len(x)] as a Python integer. *)
Definition len {A} (l : list A) : Z := Z.of_nat (length l).

(** Normalisation of one bound of a slice [x[lo:hi]] (step 1): a negative
    bound counts from the end, and the result is clipped to [0, len]. *)
Definition slice_bound (n i : Z) : Z :=
  if i <? 0 then Z.max 0 (i + n) else Z.min i n.

(** [x[lo:hi]] for a list or a 1-D array. *)
Definition py_slice {A} (l : list A) (lo hi : Z) : list A :=
  let lo' := slice_bound (len l) lo in
  let hi' := slice_bound (len l) hi in
  take (Z.to_nat (hi' - lo')) (drop (Z.to_nat lo') l).

(** [x[i]]: a negative index counts from the end, an index out of range
    raises [IndexError]. *)
Definition py_index {A} (l : list A) (i : Z) : option A :=
  if (0 <=? i) && (i <? len l) then l !! Z.to_nat i
  else if (- len l <=? i) && (i <? 0) then l !! Z.to_nat (i + len l)
  else None.

(** [range(0, stop, step)]; a zero step raises [ValueError]. *)
Fixpoint range_from (fuel : nat) (start stop step : Z) : list Z :=
  match fuel with
  | O => []
  | S fuel' =>
      if start <? stop then start :: range_from fuel' (start + step) stop step
      else []
  end.

Definition py_range (stop step : Z) : option (list Z) :=
  if step =? 0 then None
  else if step <? 0 then Some []
  else Some (range_from (Z.to_nat stop) 0 stop step).

(** Element-wise operations on 1-D arrays of one length. *)
Definition veq (a b : list ascii) : list bool := zip_with Ascii.eqb a b.
Definition vand (u v : list bool) : list bool := zip_with andb u v.
Definition vnot (u : list bool) : list bool := negb <$> u.

(** [np.sum] of a boolean array: the number of [True] entries. *)
Definition np_sum (u : list bool) : Z := len (filter (λ b, b = true) u).

Infix "&&&" := vand (at level 40, left associativity).

(** ** Pattern counting *)

(** [Siscan.count_patterns]: [seq_array[0..3]] are the four rows. *)
Definition count_patterns (seq_array : list (list ascii)) : option (list Z) :=
  a ← seq_array !! 0%nat;
  b ← seq_array !! 1%nat;
  c ← seq_array !! 2%nat;
  d ← seq_array !! 3%nat;
  let ab := veq a b in
  let bc := veq b c in
  let ac := veq a c in
  let ad := veq a d in
  let cd := veq c d in
  let bd := veq b d in
  Some
    [ np_sum (vnot ab &&& vnot ac &&& vnot ad &&& vnot bc &&& vnot bd &&& vnot cd);
      np_sum (ab &&& vnot ac &&& vnot ad);
      np_sum (ac &&& vnot ab &&& vnot ad);
      np_sum (ad &&& vnot ab &&& vnot ac);
      np_sum (bc &&& vnot ab &&& vnot bd);
      np_sum (bd &&& vnot ab &&& vnot bc);
      np_sum (cd &&& vnot bc &&& vnot ac);
      np_sum (ab &&& cd &&& vnot bc);
      np_sum (ac &&& bd &&& vnot bc);
      np_sum (ad &&& bc &&& vnot ab);
      np_sum (ab &&& bc &&& vnot ad);
      np_sum (ab &&& bd &&& vnot ac);
      np_sum (ac &&& cd &&& vnot ab);
      np_sum (bc &&& cd &&& vnot ab);
      np_sum (ab &&& bc &&& ad) ].

(** [Siscan.sum_pattern_counts]: entries 3..8 are filled, 0..2 stay 0. *)
Definition sum_pattern_counts (pat_counts : list Z) : option (list Z) :=
  p1 ← pat_counts !! 1%nat;
  p7 ← pat_counts !! 7%nat;
  p10 ← pat_counts !! 10%nat;
  p11 ← pat_counts !! 11%nat;
  p2 ← pat_counts !! 2%nat;
  p8 ← pat_counts !! 8%nat;
  p12 ← pat_counts !! 12%nat;
  p3 ← pat_counts !! 3%nat;
  p9 ← pat_counts !! 9%nat;
  p4 ← pat_counts !! 4%nat;
  p13 ← pat_counts !! 13%nat;
  p5 ← pat_counts !! 5%nat;
  p6 ← pat_counts !! 6%nat;
  Some [ 0; 0; 0;
         p1 + p7 + p10 + p11;
         p2 + p8 + p10 + p12;
         p3 + p9 + p11 + p12;
         p4 + p9 + p10 + p13;
         p5 + p8 + p11 + p13;
         p6 + p7 + p12 + p13 ].

(** Step (3) of [Siscan.execute]: the informative-site sums overwrite
    entries 0..2 of the summary vector of the real window. *)
Definition informative_sums (pat_counts sum_pat_counts : list Z) : option (list Z) :=
  p1 ← pat_counts !! 1%nat;
  p6 ← pat_counts !! 6%nat;
  p7 ← pat_counts !! 7%nat;
  p2 ← pat_counts !! 2%nat;
  p5 ← pat_counts !! 5%nat;
  p8 ← pat_counts !! 8%nat;
  p3 ← pat_counts !! 3%nat;
  p4 ← pat_counts !! 4%nat;
  p9 ← pat_counts !! 9%nat;
  Some (<[2%nat := p3 + p4 + p9]>
          (<[1%nat := p2 + p5 + p8]>
             (<[0%nat := p1 + p6 + p7]> sum_pat_counts))).

Definition sum_list_Z (l : list Z) : Z := foldr Z.add 0 l.

(** ** The two pseudo-random generators

    [random.seed] and [np.random.seed] fix two streams of draws; a
    generator state is a stream and a position in it. *)

Record rng := Rng {
  py_draws : nat → nat;   (* the stream of Python's [random] module *)
  py_pos : nat;
  np_draws : nat → nat;   (* the stream of [numpy.random] *)
  np_pos : nat
}.

Definition next_py (g : rng) : rng :=
  {| py_draws := py_draws g; py_pos := S (py_pos g);
     np_draws := np_draws g; np_pos := np_pos g |}.

Definition next_np (g : rng) : rng :=
  {| py_draws := py_draws g; py_pos := py_pos g;
     np_draws := np_draws g; np_pos := S (np_pos g) |}.

(** [random.choice(seq)]: [seq[randbelow(len(seq))]]; an empty sequence
    raises [IndexError]. *)
Definition random_choice {A} (choices : list A) (g : rng) : option (A * rng) :=
  x ← choices !! (py_draws g (py_pos g) `mod` length choices)%nat;
  Some (x, next_py g).

(** numpy's bounded draw, uniform over [0, max]. *)
Definition random_interval (max : nat) (g : rng) : nat * rng :=
  ((np_draws g (np_pos g) `mod` S max)%nat, next_np g).

(** [x[i], x[j] = x[j], x[i]] *)
Definition swap {A} (x : list A) (i j : nat) : list A :=
  match x !! i, x !! j with
  | Some xi, Some xj => <[i := xj]> (<[j := xi]> x)
  | _, _ => x
  end.

(** [np.random.shuffle(x)] on a 1-D array: for [i] from [n-1] down to 1,
    draw [j] in [0, i] and exchange [x[i]] and [x[j]]. *)
Fixpoint shuffle_from {A} (i : nat) (x : list A) (g : rng) : list A * rng :=
  match i with
  | O => (x, g)
  | S i' =>
      let '(j, g') := random_interval i g in
      shuffle_from i' (swap x i j) g'
  end.

Definition np_shuffle {A} (x : list A) (g : rng) : list A * rng :=
  shuffle_from (length x - 1) x g.

(** [np.random.permutation(n)]: a shuffled [arange(n)]. *)
Definition np_permutation (n : nat) (g : rng) : list nat * rng :=
  np_shuffle (seq 0 n) g.

(** ** Triplets and windows *)

Record Triplet := {
  names : list string;
  sequences : list (list ascii)
}.

(** [sequences.shape[1]] *)
Definition ncols (arr : list (list ascii)) : nat :=
  match arr with
  | [] => 0%nat
  | row :: _ => length row
  end.

(** Writing [v] through the view [row[lo:hi]] (of the length of [v]). *)
Definition write_slice {A} (row : list A) (lo hi : Z) (v : list A) : list A :=
  let lo' := Z.to_nat (slice_bound (len row) lo) in
  take lo' row ++ v ++ drop (lo' + length v) row.

(** [d = sequences[selected_seq][win_start:win_end]; np.random.shuffle(d)]:
    basic slicing of an array gives a view, so the shuffle writes through
    to the row of [sequences] the view was taken from. *)
Definition shuffle_view (seqs : list (list ascii)) (selected_seq : nat)
    (win_start win_end : Z) (g : rng) : option (list (list ascii) * rng) :=
  row ← seqs !! selected_seq;
  let '(d, g') := np_shuffle (py_slice row win_start win_end) g in
  Some (<[selected_seq := write_slice row win_start win_end d]> seqs, g').

(** The bounds of the window of one iteration of the loop
    [for window in range(0, align.shape[1], step_size)]. *)
Definition window_bounds (win_size : Z) (window : Z) : Z * Z :=
  let win_start := 0 in
  let win_end := win_start + win_size in
  (win_start, win_end).

Record Window := {
  win_start : Z;
  win_end : Z;
  selected_seq : nat;
  seq_array : list (list ascii);   (* [np.array([a, b, c, d])] *)
  seqs_after : list (list ascii);  (* [triplet.sequences] once [d] is shuffled *)
  gen_after : rng
}.

(** Lines 152-166 of [execute]: the views [a], [b], [c], the fourth
    sequence and the array built from them.  [np.array] copies the views
    when it is called, that is after the shuffle. *)
Definition make_window (win_size window : Z) (seqs : list (list ascii)) (g : rng)
    : option Window :=
  let '(win_start, win_end) := window_bounds win_size window in
  _ ← seqs !! 0%nat;
  _ ← seqs !! 1%nat;
  _ ← seqs !! 2%nat;
  '(selected_seq, g1) ← random_choice [0; 1; 2]%nat g;
  '(seqs', g2) ← shuffle_view seqs selected_seq win_start win_end g1;
  a ← seqs' !! 0%nat;
  b ← seqs' !! 1%nat;
  c ← seqs' !! 2%nat;
  d ← seqs' !! selected_seq;
  Some {| win_start := win_start; win_end := win_end;
          selected_seq := selected_seq;
          seq_array := [ py_slice a win_start win_end; py_slice b win_start win_end;
                         py_slice c win_start win_end; py_slice d win_start win_end ];
          seqs_after := seqs'; gen_after := g2 |}.

(** [seq_array[:, perm]] *)
Definition permute_cols (arr : list (list ascii)) (perm : list nat)
    : option (list (list ascii)) :=
  mapM (λ row, mapM (λ j, row !! j) perm) arr.

(** One iteration of the permutation loop (lines 183-187). *)
Definition perm_iteration (arr : list (list ascii)) (g : rng)
    : option (list Z * list Z * rng) :=
  let '(perm, g') := np_permutation (ncols arr) g in
  a1 ← permute_cols arr perm;
  p_counts ← count_patterns a1;
  sum_p_counts ← sum_pattern_counts p_counts;
  Some (p_counts, sum_p_counts, g').

(** [for i in range(scan_perm_num)]: [p_counts] and [sum_p_counts] are
    assigned afresh in each iteration. *)
Fixpoint perm_loop (n : nat) (arr : list (list ascii))
    (st : list Z * list Z * rng) : option (list Z * list Z * rng) :=
  match n with
  | O => Some st
  | S n' =>
      st' ← perm_iteration arr (st.2);
      perm_loop n' arr st'
  end.

(** ** Counts of one window (lines 167-187) *)

Record WindowCounts := {
  pat_counts : list Z;
  sum_pat_counts : list Z;
  p_counts : list Z;        (* as the permutation loop leaves it *)
  sum_p_counts : list Z;
  gen_counts : rng
}.

Definition window_counts (scan_perm_num : Z) (arr : list (list ascii)) (g : rng)
    : option WindowCounts :=
  pat_counts ← count_patterns arr;
  sum0 ← sum_pattern_counts pat_counts;
  sum_pat_counts ← informative_sums pat_counts sum0;
  '(p_counts, sum_p_counts, g') ← perm_loop (Z.to_nat scan_perm_num) arr ([], [], g);
  Some {| pat_counts := pat_counts; sum_pat_counts := sum_pat_counts;
          p_counts := p_counts; sum_p_counts := sum_p_counts; gen_counts := g' |}.

(** ** Numeric environment

    The floating-point values of the scan and the numpy and scipy
    functions applied to them.  The code never inspects a float except
    through these operations, so the scan is stated over any
    interpretation of them. *)

Record raw_call (score : Type) := RawCall {
  rc_rec : string;
  rc_parents : list string;
  rc_start : Z;
  rc_end : Z;
  rc_score : score
}.
Arguments RawCall {score}.
Arguments rc_rec {score}.
Arguments rc_parents {score}.
Arguments rc_start {score}.
Arguments rc_end {score}.
Arguments rc_score {score}.

Class Numerics := {
  float : Type;
  float_eq_dec :: EqDecision float;        (* [==] on values, as [list.remove] uses it *)
  of_int : Z → float;                      (* an integer count as a float *)
  f_sub : float → float → float;
  f_div : float → float → float;
  f_mul : float → float → float;
  f_gt : float → float → bool;
  f_abs : float → float;
  f_0_3 : float;                           (* the literal [0.3] *)
  np_mean : list Z → float;
  np_std : list Z → float;
  gaussian_filter1d : list float → list float;   (* sigma 1.5 *)
  find_peaks : list float → Z → option (list Z); (* [find_peaks(x, distance)[0]];
                                                    raises when [distance < 1] *)
  py_sorted : list (raw_call float) → list (raw_call float)
}.

(** Correlation coefficients: [NaN] or a number. *)
Inductive coeff := NaN | Num (q : Q).

Class Distances := {
  dist : Type;
  dist_eq_dec :: EqDecision dist;
  jc_distance : list ascii → list ascii → dist;
  pearsonr : list dist → list dist → coeff       (* [pearsonr(x, y)[0]] *)
}.

(** ** Z-scores (step 5) *)

Section ZScores.
Context `{Numerics}.

(** [z = (val - pop_mean) / pop_std] for each [val] of [counts]. *)
Definition zscores (counts population : list Z) : list float :=
  let pop_mean := np_mean population in
  let pop_std := np_std population in
  (λ val, f_div (f_sub (of_int val) pop_mean) pop_std) <$> counts.

(** Lines 189-203 of [execute]. *)
Definition window_zscores (c : WindowCounts) : list float * list float :=
  (zscores (pat_counts c) (p_counts c),
   zscores (sum_pat_counts c) (sum_p_counts c)).

(** ** Peaks and breakpoint intervals (lines 208-220) *)

(** The condition of the [while] loop, with Python's short-circuit [and]. *)
Definition widen_cond (z : list float) (peak search_win_size : Z) : option bool :=
  if negb (peak - search_win_size >? 0) then Some false
  else if negb (peak + search_win_size <? len z - 1) then Some false
  else
    zr ← py_index z (peak + search_win_size);
    zp ← py_index z peak;
    if negb (f_gt zr (f_mul f_0_3 zp)) then Some false
    else
      zl ← py_index z (peak - search_win_size);
      zp' ← py_index z peak;
      Some (f_gt zl (f_mul f_0_3 zp')).

(** The [while] loop; [None] when an index raises or [fuel] runs out. *)
Fixpoint search_loop (fuel : nat) (z : list float) (peak search_win_size : Z)
    : option Z :=
  match fuel with
  | O => None
  | S fuel' =>
      c ← widen_cond z peak search_win_size;
      if (c : bool) then search_loop fuel' z peak (search_win_size + 1)
      else Some search_win_size
  end.

(** [search_win_size] when the loop is left: the loop runs at most
    [peak] times, since it requires [peak - search_win_size > 0]. *)
Definition final_search_win_size (z : list float) (peak : Z) : option Z :=
  search_loop (S (Z.to_nat peak)) z peak 1.

Definition breakpoint_interval (z : list float) (win_size peak : Z) : option (Z * Z) :=
  search_win_size ← final_search_win_size z peak;
  zr ← py_index z (peak + search_win_size);
  zl ← py_index z (peak - search_win_size);
  Some (if f_gt zr zl then (peak, peak + search_win_size + win_size)
        else (peak - search_win_size, peak + win_size)).
End ZScores.

(** ** Identification of the recombinant *)

(** Modelled from the spec: [all_items_equal] of [scripts.common] is not
    under src/; a list "has all-equal values". *)
Definition all_items_equal {A} `{EqDecision A} (x : list A) : bool :=
  match x with
  | [] => true
  | x0 :: _ => forallb (λ y, bool_decide (y = x0)) x
  end.

Definition is_nan (x : coeff) : bool :=
  match x with NaN => true | Num _ => false end.

(** [x >= y] on floats: false when either side is NaN. *)
Definition coeff_ge (x y : coeff) : bool :=
  match x, y with
  | Num p, Num q => Qle_bool q p
  | _, _ => false
  end.

(** [np.argmin] of a 1-D float array, as numpy computes it: the scan keeps
    the first element that is not [>=] the current minimum and stops at the
    first NaN, so a NaN is the minimum and otherwise the first smallest
    element is. *)
Fixpoint argmin_scan (mp : coeff) (min_ind i : nat) (l : list coeff) : nat :=
  match l with
  | [] => min_ind
  | x :: l' =>
      if negb (coeff_ge x mp) then
        if is_nan x then i else argmin_scan x i (S i) l'
      else argmin_scan mp min_ind (S i) l'
  end.

Definition np_argmin (l : list coeff) : option nat :=
  match l with
  | [] => None
  | x :: l' => if is_nan x then Some 0%nat else Some (argmin_scan x 0 1 l')
  end.

Section Identify.
Context `{Distances}.

(** [[jc_distance(seqs[i][lo:hi], seqs[j][lo:hi]) for j != i]] *)
Definition distances_of (trp : Triplet) (lo hi : Z) (i : nat) : option (list dist) :=
  mapM (λ j, si ← sequences trp !! i;
             sj ← sequences trp !! j;
             Some (jc_distance (py_slice si lo hi) (py_slice sj lo hi)))
       (filter (λ j, i ≠ j) (seq 0 (length (names trp)))).

Definition upstream_dists (trp : Triplet) (aln_pos : Z * Z) : option (list (list dist)) :=
  mapM (distances_of trp 0 (aln_pos.1)) (seq 0 (length (names trp))).

Definition downstream_dists (trp : Triplet) (aln_pos : Z * Z) : option (list (list dist)) :=
  mapM (distances_of trp (aln_pos.2) (Z.of_nat (ncols (sequences trp))))
       (seq 0 (length (names trp))).

(** Lines 254-265: the three coefficients. *)
Definition r_coeff (up down : list (list dist)) : option (list coeff) :=
  u0 ← up !! 0%nat;
  d0 ← down !! 0%nat;
  if all_items_equal u0 || all_items_equal d0 then Some [NaN; Num 0; Num 0]
  else
    u1 ← up !! 1%nat;
    d1 ← down !! 1%nat;
    if all_items_equal u1 || all_items_equal d1 then Some [Num 0; NaN; Num 0]
    else
      u2 ← up !! 2%nat;
      d2 ← down !! 2%nat;
      if all_items_equal u2 || all_items_equal d2 then Some [Num 0; Num 0; NaN]
      else Some [pearsonr u0 d0; pearsonr u1 d1; pearsonr u2 d2].

Definition coefficients (trp : Triplet) (aln_pos : Z * Z) : option (list coeff) :=
  up ← upstream_dists trp aln_pos;
  down ← downstream_dists trp aln_pos;
  r_coeff up down.

(** [Siscan.identify_recombinant] *)
Definition identify_recombinant (trp : Triplet) (aln_pos : Z * Z)
    : option (string * list string) :=
  r ← coefficients trp aln_pos;
  idx ← np_argmin r;
  rec_name ← names trp !! idx;
  Some (rec_name, delete idx (names trp)).
End Identify.

(** ** Options *)

Record Options := {
  win_size : Z;
  step_size : Z;
  strip_gaps : bool;
  pvalue_perm_num : Z;
  scan_perm_num : Z;
  random_seed : Z
}.

(** [Siscan.validate_options]; [align_cols] is [align.shape[1]].  The
    second component lists what is printed: the option named and the
    default used instead. *)
Definition validate_options (o : Options) (align_cols : Z)
    : Options * list (string * Z) :=
  let '(win_size1, out1) :=
    if (win_size o <? 0) || (win_size o >? align_cols)
    then (200, [("win_size"%string, 200)]) else (win_size o, []) in
  let '(step_size1, out2) :=
    if (step_size o <? 0) || (step_size o >=? win_size1) || (step_size o >? align_cols)
    then (20, out1 ++ [("step_size"%string, 20)]) else (step_size o, out1) in
  let '(pvalue_perm_num1, out3) :=
    if pvalue_perm_num o <=? 0
    then (1100, out2 ++ [("pvalue_perm_num"%string, 1100)]) else (pvalue_perm_num o, out2) in
  let '(scan_perm_num1, out4) :=
    if scan_perm_num o <=? 0
    then (100, out3 ++ [("scan_perm_num"%string, 100)]) else (scan_perm_num o, out3) in
  let '(random_seed1, out5) :=
    if random_seed o <=? 0
    then (3, out4 ++ [("random_seed"%string, 3)]) else (random_seed o, out4) in
  ({| win_size := win_size1; step_size := step_size1; strip_gaps := strip_gaps o;
      pvalue_perm_num := pvalue_perm_num1; scan_perm_num := scan_perm_num1;
      random_seed := random_seed1 |}, out5).

(** ** Merging of breakpoint calls *)

(** [sorted] on a list of names. *)
Fixpoint insert_sorted (x : string) (l : list string) : list string :=
  match l with
  | [] => [x]
  | y :: l' => if String.ltb x y then x :: l else y :: insert_sorted x l'
  end.

Definition sorted_names (l : list string) : list string :=
  foldl (λ acc x, insert_sorted x acc) [] l.

Section Merge.
Context {score : Type} `{EqDecision score}.

(** [raw_results[i][2:]]: start, end and score. *)
Abbreviation region := (Z * Z * score)%type.
Abbreviation key := (string * list string)%type.

(** [if key not in results_dict: results_dict[key] = []] and
    [results_dict[key].append(region)]; a dict keeps insertion order. *)
Fixpoint dict_append (k : key) (r : region) (d : list (key * list region))
    : list (key * list region) :=
  match d with
  | [] => [(k, [r])]
  | (k', l) :: d' =>
      if decide (k = k') then (k', l ++ [r]) :: d'
      else (k', l) :: dict_append k r d'
  end.

Definition gather (raw : list (raw_call score)) : list (key * list region) :=
  foldl (λ d bp, dict_append (rc_rec bp, sorted_names (rc_parents bp))
                             (rc_start bp, rc_end bp, rc_score bp) d) [] raw.

(** [l.remove(x)]: the first element equal to [x] goes; [ValueError]
    when there is none. *)
Fixpoint list_remove (x : region) (l : list region) : option (list region) :=
  match l with
  | [] => None
  | y :: l' => if decide (x = y) then Some l' else (y ::.) <$> list_remove x l'
  end.

(** [for region2 in old_regions]: [reg] is the list [region] being
    widened, [cur] is [results_dict[key]]. *)
Fixpoint merge_inner (reg : region) (old_regions cur : list region)
    : option (region * list region) :=
  match old_regions with
  | [] => Some (reg, cur)
  | region2 :: rest =>
      let '(start, end_, p_value) := reg in
      let '(start2, end2, _) := region2 in
      if (start <=? start2) && (start2 <=? end_) || (start <=? end2) && (end2 <=? end_)
      then
        cur' ← list_remove region2 cur;
        merge_inner (Z.min start start2, Z.max end_ end2, p_value) rest cur'
      else merge_inner reg rest cur
  end.

(** [for region in results_dict[key]]: the iterator holds an index [i]
    into the list, which the body shortens. *)
Fixpoint merge_outer (fuel i : nat) (cur merged : list region) : option (list region) :=
  match cur !! i with
  | None => Some merged
  | Some reg =>
      match fuel with
      | O => None
      | S fuel' =>
          '(reg', cur') ← merge_inner reg cur cur;
          merge_outer fuel' (S i) cur' (merged ++ [reg'])
      end
  end.

Definition merge_key (regions : list region) : option (list region) :=
  merge_outer (length regions) 0 regions [].

(** "Output the results": one tuple per merged region of a key. *)
Definition output_region (k : key) (r : region) : raw_call score :=
  RawCall (k.1) (k.2) (r.1.1) (r.1.2) (r.2).

Definition merge_entry (entry : key * list region) : option (list (raw_call score)) :=
  merged ← merge_key (entry.2);
  Some (map (output_region (entry.1)) merged).

(** [Siscan.merge_breakpoints] over [self.raw_results]. *)
Definition merge_breakpoints (raw : list (raw_call score)) : option (list (raw_call score)) :=
  per_key ← mapM merge_entry (gather raw);
  Some (List.concat per_key).
End Merge.

(** ** The scan *)

Section Execute.
Context `{Numerics} `{Distances}.

(** [for k, peak in enumerate(peaks[0])] *)
Fixpoint record_peaks (win_size : Z) (trp : Triplet) (z : list float)
    (peaks : list Z) (raw : list (raw_call float)) : option (list (raw_call float)) :=
  match peaks with
  | [] => Some raw
  | peak :: peaks' =>
      aln_pos ← breakpoint_interval z win_size peak;
      '(rec_name, parents) ← identify_recombinant trp aln_pos;
      zp ← py_index z peak;
      record_peaks win_size trp z peaks'
        (raw ++ [RawCall rec_name parents (aln_pos.1) (aln_pos.2) (f_abs zp)])
  end.

Definition scan_state : Type := list (list ascii) * rng * list (raw_call float).

(** The body of the loop over windows. *)
Definition scan_window (o : Options) (trp_names : list string) (st : scan_state)
    (window : Z) : option scan_state :=
  let '(seqs, g, raw) := st in
  w ← make_window (win_size o) window seqs g;
  c ← window_counts (scan_perm_num o) (seq_array w) (gen_after w);
  let '(pat_zscore, sum_pat_zscore) := window_zscores c in
  let z := gaussian_filter1d sum_pat_zscore in
  peaks ← find_peaks z (win_size o);
  raw' ← record_peaks (win_size o)
           {| names := trp_names; sequences := seqs_after w |} z peaks raw;
  Some (seqs_after w, gen_counts c, py_sorted raw').

Fixpoint foldM {A B} (f : B → A → option B) (b : B) (l : list A) : option B :=
  match l with
  | [] => Some b
  | x :: l' => b' ← f b x; foldM f b' l'
  end.

(** The body of the loop over triplets. *)
Definition scan_triplet (o : Options) (align_cols : Z)
    (st : list Triplet * rng * list (raw_call float)) (trp : Triplet)
    : option (list Triplet * rng * list (raw_call float)) :=
  let '(done, g, raw) := st in
  windows ← py_range align_cols (step_size o);
  '(seqs', g', raw') ← foldM (scan_window o (names trp)) (sequences trp, g, raw) windows;
  Some (done ++ [{| names := names trp; sequences := seqs' |}], g', raw').

(** [Siscan.execute]: the merged results, with the triplets as the scan
    leaves them. *)
Definition execute (o : Options) (align_cols : Z) (triplets : list Triplet) (g : rng)
    : option (list (raw_call float) * list Triplet) :=
  '(triplets', _, raw) ← foldM (scan_triplet o align_cols) ([], g, []) triplets;
  results ← merge_breakpoints raw;
  Some (results, triplets').
End Execute.

Definition constant_rng (k : nat) : rng :=
  {| py_draws := λ _, k; py_pos := 0; np_draws := λ _, k; np_pos := 0 |}.

Definition counting_rng : rng :=
  {| py_draws := λ n, n; py_pos := 0; np_draws := λ n, n; np_pos := 0 |}.

(** ** An exact interpretation, to run the scan on examples

    Floats are rationals; the mean is exact, the standard deviation is a
    Newton approximation of the square root of the variance.  The scipy
    functions are stood for by the identity (no smoothing) and by the
    strict interior local maxima. *)

Definition q_mean (l : list Z) : Q :=
  Qred (inject_Z (sum_list_Z l) / inject_Z (len l)).

Definition q_variance (l : list Z) : Q :=
  let m := q_mean l in
  Qred (foldr Qplus 0%Q ((λ v, (inject_Z v - m) * (inject_Z v - m))%Q <$> l)
        / inject_Z (len l)).

Fixpoint q_newton (n : nat) (v x : Q) : Q :=
  match n with
  | O => x
  | S n' => q_newton n' v (Qred ((x + v / x) / 2))
  end.

Definition q_std (l : list Z) : Q :=
  let v := q_variance l in
  if Qeq_bool v 0 then 0%Q else q_newton 3 v 1%Q.

Fixpoint local_maxima (i : Z) (z : list Q) : list Z :=
  match z with
  | x :: ((y :: (w :: _)) as rest) =>
      if Qlt_le_dec x y then
        if Qlt_le_dec w y then (i + 1) :: local_maxima (i + 1) rest
        else local_maxima (i + 1) rest
      else local_maxima (i + 1) rest
  | _ => []
  end.

#[local] Instance Q_eq_dec : EqDecision Q.
Proof. solve_decision. Defined.

Definition exact_numerics : Numerics := {|
  float := Q;
  of_int := inject_Z;
  f_sub := λ x y, Qred (x - y);
  f_div := λ x y, Qred (x / y);
  f_mul := λ x y, Qred (x * y);
  f_gt := λ x y, if Qlt_le_dec y x then true else false;
  f_abs := Qabs;
  f_0_3 := (3 # 10)%Q;
  np_mean := q_mean;
  np_std := q_std;
  gaussian_filter1d := λ z, z;
  find_peaks := λ z distance, if distance <? 1 then None else Some (local_maxima 0 z);
  py_sorted := λ raw, raw
|}.

(** Distances are counts of differing sites; on two points Pearson's
    coefficient is 1 or -1 with the sign of the product of the slopes. *)
Definition differing_sites (s1 s2 : list ascii) : Z :=
  len (filter (λ p, p.1 ≠ p.2) (zip s1 s2)).

Definition pearsonr_pair (x y : list Z) : coeff :=
  match x, y with
  | [x0; x1], [y0; y1] =>
      match (x1 - x0) * (y1 - y0) ?= 0 with
      | Gt => Num 1
      | Lt => Num (-1)
      | Eq => NaN
      end
  | _, _ => NaN
  end.

Definition site_distances : Distances := {|
  dist := Z;
  jc_distance := differing_sites;
  pearsonr := pearsonr_pair
|}.

(** Three identical sequences. *)
Definition identical_triplet : Triplet := {|
  names := ["A"; "B"; "C"]%string;
  sequences := [ ["A"; "C"; "G"; "T"]; ["A"; "C"; "G"; "T"]; ["A"; "C"; "G"; "T"] ]%char
|}.

(** [A] is close to [B] then to [C]; the breakpoint is at columns 4..6. *)
Definition mosaic_triplet : Triplet := {|
  names := ["A"; "B"; "C"]%string;
  sequences := [ ["A"; "A"; "A"; "A"; "T"; "T"; "A"; "A"; "A"; "A"];
                 ["C"; "A"; "A"; "A"; "T"; "T"; "C"; "C"; "C"; "A"];
                 ["A"; "G"; "G"; "A"; "T"; "T"; "A"; "A"; "A"; "G"] ]%char
|}.

(** A triplet of four columns, scanned with windows of two columns. *)
Definition example_triplet : Triplet := {|
  names := ["A"; "B"; "C"]%string;
  sequences := [ ["A"; "C"; "G"; "T"]; ["C"; "G"; "T"; "A"]; ["G"; "T"; "A"; "C"] ]%char
|}.

(** ** Vocabulary of the properties *)

(** Arrays as lists of columns. *)

Definition column : Type := ascii * ascii * ascii * ascii.

Definition col_a (x : column) : ascii := x.1.1.1.
Definition col_b (x : column) : ascii := x.1.1.2.
Definition col_c (x : column) : ascii := x.1.2.
Definition col_d (x : column) : ascii := x.2.

(** The rows of a 4-row array given by its columns. *)
Definition rows_of (cols : list column) : list (list ascii) :=
  [col_a <$> cols; col_b <$> cols; col_c <$> cols; col_d <$> cols].

Fixpoint columns_of (a b c d : list ascii) : list column :=
  match a, b, c, d with
  | xa :: a', xb :: b', xc :: c', xd :: d' => (xa, xb, xc, xd) :: columns_of a' b' c' d'
  | _, _, _, _ => []
  end.

(** The column has exactly two pairs of equal symbols: [ab|cd], [ac|bd]
    or [ad|bc]. *)
Definition two_pairs (x : column) : bool :=
  let '(a, b, c, d) := x in
  (Ascii.eqb a b && Ascii.eqb c d && negb (Ascii.eqb b c))
  || (Ascii.eqb a c && Ascii.eqb b d && negb (Ascii.eqb b c))
  || (Ascii.eqb a d && Ascii.eqb b c && negb (Ascii.eqb a b)).

(** The 15 patterns of [count_patterns], column by column. *)
Definition patterns (x : column) : list bool :=
  let '(a, b, c, d) := x in
  let ab := Ascii.eqb a b in
  let bc := Ascii.eqb b c in
  let ac := Ascii.eqb a c in
  let ad := Ascii.eqb a d in
  let cd := Ascii.eqb c d in
  let bd := Ascii.eqb b d in
  [ negb ab && negb ac && negb ad && negb bc && negb bd && negb cd;
    ab && negb ac && negb ad;
    ac && negb ab && negb ad;
    ad && negb ab && negb ac;
    bc && negb ab && negb bd;
    bd && negb ab && negb bc;
    cd && negb bc && negb ac;
    ab && cd && negb bc;
    ac && bd && negb bc;
    ad && bc && negb ab;
    ab && bc && negb ad;
    ab && bd && negb ac;
    ac && cd && negb ab;
    bc && cd && negb ab;
    ab && bc && ad ].

(** The number of columns of [cols] that match pattern [k]. *)
Definition count_pattern (k : nat) (cols : list column) : Z :=
  np_sum ((λ x, default false (patterns x !! k)) <$> cols).

Definition indicator (b : bool) : Z := if b then 1 else 0.

(** The four conditions under which the search window is widened. *)
Definition widening_holds `{Numerics} (z : list float) (peak r : Z) : Prop :=
  peak - r > 0 ∧ peak + r < len z - 1 ∧
  ∃ zr zl zp, py_index z (peak + r) = Some zr ∧ py_index z (peak - r) = Some zl
    ∧ py_index z peak = Some zp
    ∧ f_gt zr (f_mul f_0_3 zp) = true ∧ f_gt zl (f_mul f_0_3 zp) = true.

(** A region whose start is not after its end. *)
Definition well_formed {score : Type} (r : Z * Z * score) : Prop := r.1.1 ≤ r.1.2.

(** [i] is the index [np.argmin] selects in [l]: the first NaN, or the
    first smallest number when there is no NaN. *)
Definition first_nan (l : list coeff) (i : nat) : Prop :=
  l !! i = Some NaN ∧ ∀ j rj, (j < i)%nat → l !! j = Some rj → is_nan rj = false.

Definition first_minimum (l : list coeff) (i : nat) : Prop :=
  ∃ qi, l !! i = Some (Num qi)
    ∧ ∀ j rj, l !! j = Some rj →
        ∃ qj, rj = Num qj ∧ (qi <= qj)%Q ∧ ((j < i)%nat → (qi < qj)%Q).

(** Windows of two columns, advanced by two columns, two permutations. *)
Definition example_options : Options := {|
  win_size := 2; step_size := 2; strip_gaps := true;
  pvalue_perm_num := 1100; scan_perm_num := 2; random_seed := 3
|}.

(** ** Construction from a configuration

    [settings] is a dict of strings; [py_int] is Python's [int] on a
    string, [None] when it raises [ValueError].  A missing key raises
    [KeyError]. *)

Section Config.
Variable py_int : string → option Z.

(** [Siscan.set_options_from_config] *)

Definition set_options_from_config (settings : gmap string string) : option Options :=
  w ← settings !! "win_size"%string;
  win_size ← py_int w;
  s ← settings !! "step_size"%string;
  step_size ← py_int s;
  sg ← settings !! "strip_gaps"%string;
  let strip_gaps := bool_decide (sg = "True"%string) in
  p ← settings !! "pvalue_perm_num"%string;
  pvalue_perm_num ← py_int p;
  c ← settings !! "scan_perm_num"%string;
  scan_perm_num ← py_int c;
  r ← settings !! "random_seed"%string;
  random_seed ← py_int r;
  Some {| win_size := win_size; step_size := step_size; strip_gaps := strip_gaps;
          pvalue_perm_num := pvalue_perm_num; scan_perm_num := scan_perm_num;
          random_seed := random_seed |}.

(** [Siscan.__init__]: the options of the object and what is printed.
    [if settings] is false for [None] and for an empty dict; the keyword
    arguments are then stored as they are. *)
Definition __init__ (align_cols : Z) (kwargs : Options)
    (settings : option (gmap string string)) : option (Options * list (string * Z)) :=
  match settings with
  | Some m =>
      if decide (m = ∅) then Some (kwargs, [])
      else o ← set_options_from_config m; Some (validate_options o align_cols)
  | None => Some (kwargs, [])
  end.
End Config.

(** The keys of [settings] that are read through [int]. *)
Definition numeric_keys : list string :=
  ["win_size"; "step_size"; "pvalue_perm_num"; "scan_perm_num"; "random_seed"]%string.

(** Two calls that differ at most in the order of their two parents. *)
Definition same_call {score : Type} (c c' : raw_call score) : Prop :=
  rc_rec c = rc_rec c' ∧ rc_start c = rc_start c' ∧ rc_end c = rc_end c'
  ∧ rc_score c = rc_score c'
  ∧ (rc_parents c = rc_parents c'
     ∨ ∃ a b, rc_parents c = [a; b] ∧ rc_parents c' = [b; a]).

(** [r'] is the region [r] widened: the same score, and an interval that
    contains the interval of [r], with bounds taken from [regions]. *)
Definition widened_from {score : Type} (regions : list (Z * Z * score))
    (r' r : Z * Z * score) : Prop :=
  r'.2 = r.2 ∧ r'.1.1 ≤ r.1.1 ∧ r.1.2 ≤ r'.1.2
  ∧ (∃ rs, rs ∈ regions ∧ r'.1.1 = rs.1.1)
  ∧ (∃ re, re ∈ regions ∧ r'.1.2 = re.1.2).

(** Plain decimal numerals, as [int] reads them, for the examples. *)
Fixpoint decimal_digits (acc : Z) (s : string) : option Z :=
  match s with
  | EmptyString => Some acc
  | String c s' =>
      let n := Z.of_nat (nat_of_ascii c) in
      if (48 <=? n) && (n <=? 57) then decimal_digits (10 * acc + (n - 48)) s' else None
  end.

Definition decimal_int (s : string) : option Z :=
  match s with
  | EmptyString => None
  | String "-" s' =>
      match s' with
      | EmptyString => None
      | _ => Z.opp <$> decimal_digits 0 s'
      end
  | _ => decimal_digits 0 s
  end.

(** A configuration with a lower-case [strip_gaps] and a negative
    [pvalue_perm_num]. *)
Definition example_settings : gmap string string :=
  list_to_map [ ("win_size", "100"); ("step_size", "0"); ("strip_gaps", "true");
                ("pvalue_perm_num", "-5"); ("scan_perm_num", "50");
                ("random_seed", "3") ]%string.

(** Upstream [B] is as far from [A] as from [C]; [A] is not degenerate. *)
Definition degenerate_triplet : Triplet := {|
  names := ["A"; "B"; "C"]%string;
  sequences := [ ["A"; "A"; "A"; "A"; "T"; "T"; "A"; "A"; "A"; "A"];
                 ["C"; "A"; "A"; "A"; "T"; "T"; "C"; "C"; "C"; "A"];
                 ["C"; "G"; "A"; "A"; "T"; "T"; "A"; "A"; "A"; "G"] ]%char
|}.

(** The mosaic triplet with other symbols in columns 4 and 5. *)
Definition mosaic_triplet_changed : Triplet := {|
  names := ["A"; "B"; "C"]%string;
  sequences := [ ["A"; "A"; "A"; "A"; "G"; "C"; "A"; "A"; "A"; "A"];
                 ["C"; "A"; "A"; "A"; "A"; "A"; "C"; "C"; "C"; "A"];
                 ["A"; "G"; "G"; "A"; "C"; "G"; "A"; "A"; "A"; "G"] ]%char
|}.

(** The defaults of the constructor's keyword arguments. *)
Definition default_options : Options := {|
  win_size := 200; step_size := 20; strip_gaps := true;
  pvalue_perm_num := 1100; scan_perm_num := 100; random_seed := 3
|}.

(** * Properties *)

(** Inversion of a chain of binds that returned a value. *)
Ltac bind_inv H :=
  repeat match type of H with
  | mbind _ ?x = Some _ =>
      destruct x as [?|] eqn:?; [cbn [mbind option_bind] in H | discriminate H]
  | (let '(_, _) := ?p in _) = Some _ => destruct p
  end.

(** ** Arrays as lists of columns *)

Lemma rows_of_columns_of (a b c d : list ascii) :
  length b = length a → length c = length a → length d = length a →
  rows_of (columns_of a b c d) = [a; b; c; d].
Proof.
  revert b c d. induction a as [|xa a IH]; intros [|xb b] [|xc c] [|xd d];
    simpl; try discriminate; try reflexivity.
  intros Hb Hc Hd. specialize (IH b c d ltac:(lia) ltac:(lia) ltac:(lia)).
  unfold rows_of in *. injection IH as Ha Hb' Hc' Hd'.
  rewrite !fmap_cons, Ha, Hb', Hc', Hd'. reflexivity.
Qed.

Lemma length_columns_of (a b c d : list ascii) :
  length b = length a → length c = length a → length d = length a →
  length (columns_of a b c d) = length a.
Proof.
  revert b c d. induction a as [|xa a IH]; intros [|xb b] [|xc c] [|xd d];
    simpl; try discriminate; try reflexivity.
  intros. f_equal. apply IH; lia.
Qed.

Lemma zip_with_fmap_same {A B C D} (f : B → C → D) (g : A → B) (h : A → C) (l : list A) :
  zip_with f (g <$> l) (h <$> l) = (λ x, f (g x) (h x)) <$> l.
Proof. induction l as [|x l IH]; simpl; [reflexivity | f_equal; exact IH]. Qed.

Lemma veq_cols (g h : column → ascii) (cols : list column) :
  veq (g <$> cols) (h <$> cols) = (λ x, Ascii.eqb (g x) (h x)) <$> cols.
Proof. apply zip_with_fmap_same. Qed.

Lemma vand_cols (g h : column → bool) (cols : list column) :
  vand (g <$> cols) (h <$> cols) = (λ x, g x && h x) <$> cols.
Proof. apply zip_with_fmap_same. Qed.

Lemma vnot_cols (g : column → bool) (cols : list column) :
  vnot (g <$> cols) = (λ x, negb (g x)) <$> cols.
Proof. unfold vnot. by rewrite <- list_fmap_compose. Qed.

Lemma fmap_ext_cols {B} (f g : column → B) (cols : list column) :
  (∀ a b c d, f (a, b, c, d) = g (a, b, c, d)) → f <$> cols = g <$> cols.
Proof.
  intros Hfg. apply list_fmap_ext. intros _ [[[a b] c] d] _. apply Hfg.
Qed.

(** [count_patterns] counts, for each pattern, the columns that match it. *)
Lemma count_patterns_columns (cols : list column) :
  count_patterns (rows_of cols) = Some ((λ k, count_pattern k cols) <$> seq 0 15).
Proof.
  unfold count_patterns, rows_of. simpl. f_equal.
  unfold count_pattern.
  rewrite !veq_cols, !vnot_cols, !vand_cols.
  repeat (f_equal; [ f_equal; apply fmap_ext_cols; intros; reflexivity | ]).
  f_equal. f_equal. apply fmap_ext_cols; intros; reflexivity.
Qed.

Lemma np_sum_cons (b : bool) (u : list bool) :
  np_sum (b :: u) = indicator b + np_sum u.
Proof.
  unfold np_sum, len. rewrite filter_cons.
  destruct (decide (b = true)) as [->|Hb]; simpl.
  - lia.
  - destruct b; [congruence|]. simpl. lia.
Qed.

Lemma np_sum_bounds (u : list bool) : 0 ≤ np_sum u ≤ len u.
Proof.
  induction u as [|b u IH]; [unfold np_sum, len; simpl; lia|].
  rewrite np_sum_cons. unfold len in *. simpl length. destruct b; simpl; lia.
Qed.

Lemma count_pattern_cons (k : nat) (x : column) (cols : list column) :
  count_pattern k (x :: cols)
  = indicator (default false (patterns x !! k)) + count_pattern k cols.
Proof. unfold count_pattern. rewrite fmap_cons. apply np_sum_cons. Qed.

(** A column matches one pattern, or three when it has two pairs: the
    single-pair patterns 1..6 do not exclude the complementary pair. *)
Lemma patterns_of_column (x : column) :
  sum_list_Z (indicator <$> patterns x) = 1 + 2 * indicator (two_pairs x).
Proof.
  destruct x as [[[a b] c] d]. unfold patterns, two_pairs.
  destruct (Ascii.eqb_spec a b), (Ascii.eqb_spec b c), (Ascii.eqb_spec a c),
    (Ascii.eqb_spec a d), (Ascii.eqb_spec c d), (Ascii.eqb_spec b d);
    try congruence; reflexivity.
Qed.

Lemma sum_counts_cons (x : column) (cols : list column) :
  sum_list_Z ((λ k, count_pattern k (x :: cols)) <$> seq 0 15)
  = sum_list_Z (indicator <$> patterns x)
    + sum_list_Z ((λ k, count_pattern k cols) <$> seq 0 15).
Proof.
  destruct x as [[[a b] c] d].
  cbn [seq fmap list_fmap sum_list_Z foldr].
  rewrite !count_pattern_cons.
  cbn [patterns lookup list_lookup default from_option fmap list_fmap sum_list_Z foldr].
  unfold id. lia.
Qed.

(** The sum of the 15 counts: the number of columns, and twice the number
    of columns with two pairs. *)
Lemma sum_counts_columns (cols : list column) :
  sum_list_Z ((λ k, count_pattern k cols) <$> seq 0 15)
  = len cols + 2 * np_sum (two_pairs <$> cols).
Proof.
  induction cols as [|x cols IH].
  - reflexivity.
  - rewrite sum_counts_cons, IH, patterns_of_column, fmap_cons, np_sum_cons.
    unfold len. simpl length. lia.
Qed.

Lemma count_patterns_sum (a b c d : list ascii) :
  length b = length a → length c = length a → length d = length a →
  ∃ counts, count_patterns [a; b; c; d] = Some counts
    ∧ length counts = 15%nat
    ∧ sum_list_Z counts = len a + 2 * np_sum (two_pairs <$> columns_of a b c d).
Proof.
  intros Hb Hc Hd.
  rewrite <- (rows_of_columns_of a b c d Hb Hc Hd), count_patterns_columns.
  eexists; split; [reflexivity|]. split; [reflexivity|].
  rewrite sum_counts_columns. unfold len.
  by rewrite length_columns_of.
Qed.

(** ** Shuffles are permutations *)

Lemma swap_Permutation {A} (x : list A) (i j : nat) : swap x i j ≡ₚ x.
Proof.
  unfold swap. destruct (x !! i) as [xi|] eqn:Hi; [|reflexivity].
  destruct (x !! j) as [xj|] eqn:Hj; [|reflexivity].
  by apply Permutation_insert_swap.
Qed.

Lemma shuffle_from_Permutation {A} (i : nat) (x : list A) (g : rng) :
  (shuffle_from i x g).1 ≡ₚ x.
Proof.
  revert x g. induction i as [|i IH]; intros x g; simpl; [reflexivity|].
  rewrite IH. apply swap_Permutation.
Qed.

Lemma np_shuffle_Permutation {A} (x : list A) (g : rng) : (np_shuffle x g).1 ≡ₚ x.
Proof. apply shuffle_from_Permutation. Qed.

Lemma np_permutation_Permutation (n : nat) (g : rng) :
  (np_permutation n g).1 ≡ₚ seq 0 n.
Proof. apply np_shuffle_Permutation. Qed.

(** ** Column permutations *)

Lemma np_sum_Permutation (u v : list bool) : u ≡ₚ v → np_sum u = np_sum v.
Proof. intros Huv. unfold np_sum, len. by rewrite Huv. Qed.

Lemma count_pattern_Permutation (k : nat) (cols cols' : list column) :
  cols ≡ₚ cols' → count_pattern k cols = count_pattern k cols'.
Proof. intros Hc. unfold count_pattern. apply np_sum_Permutation. by rewrite Hc. Qed.

Lemma mapM_lookup_fmap {A B} (f : A → B) (l : list A) (perm : list nat) :
  mapM (λ j, (f <$> l) !! j) perm = fmap f <$> mapM (λ j, l !! j) perm.
Proof.
  induction perm as [|j perm IH]; [reflexivity|].
  cbn [mapM]. rewrite IH, list_lookup_fmap.
  destruct (l !! j); [|reflexivity]. simpl.
  destruct (mapM (λ j, l !! j) perm); reflexivity.
Qed.

Lemma mapM_lookup_seq {A} (l : list A) (start : nat) (l0 : list A) :
  length l0 = start →
  mapM (λ j, (l0 ++ l) !! j) (seq start (length l)) = Some l.
Proof.
  revert start l0. induction l as [|x l IH]; intros start l0 Hlen; [reflexivity|].
  cbn [length seq mapM].
  rewrite lookup_app_r, Hlen, Nat.sub_diag by lia. simpl.
  specialize (IH (S start) (l0 ++ [x])). rewrite <- app_assoc in IH. simpl in IH.
  rewrite IH; [reflexivity|]. rewrite length_app. simpl. lia.
Qed.

Lemma mapM_Permutation {A B} (f : A → option B) (l1 l2 : list A) (r1 : list B) :
  l1 ≡ₚ l2 → mapM f l1 = Some r1 → ∃ r2, mapM f l2 = Some r2 ∧ r1 ≡ₚ r2.
Proof.
  intros Hp. revert r1. induction Hp as [|x l1 l2 Hp IH|x y l|l1 l2 l3 Hp1 IH1 Hp2 IH2];
    intros r1 Hr1.
  - exists r1. by split.
  - cbn [mapM] in *. destruct (f x) as [y|]; [|discriminate]. simpl in *.
    destruct (mapM f l1) as [k1|] eqn:Hk1; [|discriminate]. simpl in Hr1.
    injection Hr1 as <-. destruct (IH k1 eq_refl) as (k2 & -> & Hk). simpl.
    exists (y :: k2). split; [reflexivity|]. by constructor.
  - cbn [mapM] in *. destruct (f y) as [y'|]; [|discriminate]. simpl in *.
    destruct (f x) as [x'|]; [|discriminate]. simpl in *.
    destruct (mapM f l) as [k|]; [|discriminate]. simpl in *.
    injection Hr1 as <-. eexists. split; [reflexivity|]. constructor.
  - destruct (IH1 r1 Hr1) as (r2 & Hr2 & Hp12).
    destruct (IH2 r2 Hr2) as (r3 & Hr3 & Hp23).
    exists r3. split; [done|]. by etransitivity.
Qed.

(** Indexing the columns by a permutation of their indices permutes them. *)
Lemma permuted_columns (cols : list column) (perm : list nat) :
  perm ≡ₚ seq 0 (length cols) →
  ∃ cols', mapM (λ j, cols !! j) perm = Some cols' ∧ cols' ≡ₚ cols.
Proof.
  intros Hp.
  destruct (mapM_Permutation (λ j, cols !! j) (seq 0 (length cols)) perm cols)
    as (cols' & Hc & Hpc).
  - by symmetry.
  - apply (mapM_lookup_seq cols 0 []). reflexivity.
  - exists cols'. split; [done|]. by symmetry.
Qed.

Lemma permute_cols_rows_of (cols cols' : list column) (perm : list nat) :
  mapM (λ j, cols !! j) perm = Some cols' →
  permute_cols (rows_of cols) perm = Some (rows_of cols').
Proof.
  intros Hc. unfold permute_cols, rows_of. cbn [mapM].
  rewrite !mapM_lookup_fmap, Hc. reflexivity.
Qed.

(** [count_patterns] does not see a joint permutation of the columns. *)
Lemma count_patterns_permute_rows_of (cols : list column) (perm : list nat) :
  perm ≡ₚ seq 0 (length cols) →
  ∃ a1, permute_cols (rows_of cols) perm = Some a1
    ∧ count_patterns a1 = count_patterns (rows_of cols).
Proof.
  intros Hp. destruct (permuted_columns cols perm Hp) as (cols' & Hc & Hpc).
  exists (rows_of cols'). split; [by apply permute_cols_rows_of|].
  rewrite !count_patterns_columns. f_equal.
  apply list_fmap_ext. intros _ k _. by apply count_pattern_Permutation.
Qed.

Lemma ncols_rows_of (cols : list column) : ncols (rows_of cols) = length cols.
Proof. unfold ncols, rows_of. by rewrite length_fmap. Qed.

Lemma sum_pattern_counts_total (cols : list column) :
  is_Some (sum_pattern_counts ((λ k, count_pattern k cols) <$> seq 0 15)).
Proof. eexists. reflexivity. Qed.

(** One iteration of the permutation loop recomputes the counts of the
    array it permutes. *)
Lemma perm_iteration_rows_of (cols : list column) (g : rng) :
  ∃ counts sums,
    count_patterns (rows_of cols) = Some counts
    ∧ sum_pattern_counts counts = Some sums
    ∧ perm_iteration (rows_of cols) g
      = Some (counts, sums, (np_permutation (length cols) g).2).
Proof.
  destruct (sum_pattern_counts_total cols) as [sums Hsums].
  exists ((λ k, count_pattern k cols) <$> seq 0 15), sums.
  split; [apply count_patterns_columns|]. split; [done|].
  unfold perm_iteration. rewrite ncols_rows_of.
  pose proof (np_permutation_Permutation (length cols) g) as Hp.
  destruct (np_permutation (length cols) g) as [perm g'] eqn:Hperm. simpl in Hp.
  destruct (count_patterns_permute_rows_of cols perm Hp) as (a1 & -> & Ha1).
  cbn [mbind option_bind]. rewrite Ha1, count_patterns_columns.
  cbn [mbind option_bind]. rewrite Hsums. reflexivity.
Qed.

(** ** The permutation loop *)

Lemma perm_loop_S (n : nat) (arr : list (list ascii)) (st : list Z * list Z * rng) :
  perm_loop (S n) arr st = st' ← perm_iteration arr (st.2); perm_loop n arr st'.
Proof. reflexivity. Qed.

(** The loop as its first [n] iterations followed by the last one. *)
Lemma perm_loop_last (n : nat) (arr : list (list ascii)) (st : list Z * list Z * rng) :
  perm_loop (S n) arr st = st' ← perm_loop n arr st; perm_iteration arr (st'.2).
Proof.
  revert st. induction n as [|n IH]; intros st.
  - simpl. destruct (perm_iteration arr (st.2)); reflexivity.
  - rewrite (perm_loop_S (S n)), (perm_loop_S n).
    destruct (perm_iteration arr (st.2)) as [st1|]; [|reflexivity].
    cbn [mbind option_bind]. apply IH.
Qed.

(** On a rectangular array the loop runs to its end. *)
Lemma perm_loop_total (n : nat) (cols : list column) (st : list Z * list Z * rng) :
  is_Some (perm_loop n (rows_of cols) st).
Proof.
  revert st. induction n as [|n IH]; intros st; [by eexists|].
  cbn [perm_loop].
  destruct (perm_iteration_rows_of cols (st.2)) as (counts & sums & _ & _ & ->).
  cbn [mbind option_bind]. apply IH.
Qed.

Lemma informative_sums_total (cols : list column) (sums : list Z) :
  is_Some (informative_sums ((λ k, count_pattern k cols) <$> seq 0 15) sums).
Proof. eexists. reflexivity. Qed.

(** ** Breakpoint intervals *)

Section Peaks.
Context `{Numerics}.

Lemma py_index_in_range {A} (l : list A) (i : Z) :
  0 ≤ i < len l → ∃ x, py_index l i = Some x.
Proof.
  intros Hi. unfold py_index.
  replace (0 <=? i) with true by (symmetry; apply Z.leb_le; lia).
  replace (i <? len l) with true by (symmetry; apply Z.ltb_lt; lia).
  simpl. apply lookup_lt_is_Some_2. unfold len in Hi. lia.
Qed.

Lemma widen_cond_spec (z : list float) (peak r : Z) :
  1 ≤ r → 0 < peak →
  ∃ c, widen_cond z peak r = Some c ∧ (c = true ↔ widening_holds z peak r).
Proof.
  intros Hr Hp. unfold widen_cond, widening_holds.
  destruct (peak - r >? 0) eqn:H1; simpl.
  2:{ exists false. split; [reflexivity|]. rewrite Z.gtb_ltb in H1. apply Z.ltb_ge in H1.
      split; [discriminate|]. intros (? & _). lia. }
  rewrite Z.gtb_ltb in H1. apply Z.ltb_lt in H1.
  destruct (peak + r <? len z - 1) eqn:H2; simpl.
  2:{ exists false. split; [reflexivity|]. apply Z.ltb_ge in H2.
      split; [discriminate|]. intros (_ & ? & _). lia. }
  apply Z.ltb_lt in H2.
  destruct (py_index_in_range z (peak + r)) as [zr Hzr]; [lia|].
  destruct (py_index_in_range z peak) as [zp Hzp]; [lia|].
  destruct (py_index_in_range z (peak - r)) as [zl Hzl]; [lia|].
  rewrite Hzr, Hzp, Hzl. cbn [mbind option_bind].
  destruct (f_gt zr (f_mul f_0_3 zp)) eqn:Hgr; simpl.
  - exists (f_gt zl (f_mul f_0_3 zp)). split; [reflexivity|]. split.
    + intros Hgl. split; [lia|]. split; [lia|]. by exists zr, zl, zp.
    + intros (_ & _ & zr' & zl' & zp' & ? & ? & ? & _ & Hgl). congruence.
  - exists false. split; [reflexivity|]. split; [discriminate|].
    intros (_ & _ & zr' & zl' & zp' & ? & ? & ? & Hgr' & _). congruence.
Qed.

(** The loop stops, at the first radius where a condition fails. *)
Lemma search_loop_spec (fuel : nat) (z : list float) (peak s : Z) :
  0 < peak → 1 ≤ s → (Z.to_nat (peak - s) < fuel)%nat →
  (∀ r', 1 ≤ r' < s → widening_holds z peak r') →
  ∃ r, search_loop fuel z peak s = Some r ∧ s ≤ r
    ∧ (∀ r', 1 ≤ r' < r → widening_holds z peak r')
    ∧ ¬ widening_holds z peak r.
Proof.
  revert s. induction fuel as [|fuel IH]; intros s Hp Hs Hfuel Hbelow; [lia|].
  cbn [search_loop].
  destruct (widen_cond_spec z peak s Hs Hp) as (c & -> & Hc).
  cbn [mbind option_bind]. destruct c.
  - assert (Hw : widening_holds z peak s) by (by apply Hc).
    destruct (IH (s + 1)) as (r & Hr & Hle & Hall & Hnot); try lia.
    + destruct Hw as (? & _). lia.
    + intros r' Hr'. destruct (decide (r' = s)) as [->|]; [done|]. apply Hbelow. lia.
    + exists r. split; [done|]. split; [lia|]. split; done.
  - exists s. split; [done|]. split; [lia|]. split; [done|].
    intros Hw. apply Hc in Hw. discriminate.
Qed.

(** C8.  For a peak [p] in the interior of the smoothed z-score vector
    [z], the search radius starts at 1 and the loop leaves it at the first
    radius [r] at which one of [p - r > 0], [p + r < length - 1],
    [z[p+r] > 0.3 * z[p]], [z[p-r] > 0.3 * z[p]] fails (they all hold at
    the radii from 1 up to [r - 1]); the interval reported is
    [(p, p + r + win_size)] if [z[p+r] > z[p-r]] and [(p - r, p + win_size)]
    otherwise. *)
Theorem breakpoint_interval_of_peak (z : list float) (win_size peak : Z) :
  0 < peak < len z - 1 →
  ∃ r zr zl,
    final_search_win_size z peak = Some r
    ∧ 1 ≤ r
    ∧ (∀ r', 1 ≤ r' < r → widening_holds z peak r')
    ∧ ¬ widening_holds z peak r
    ∧ py_index z (peak + r) = Some zr
    ∧ py_index z (peak - r) = Some zl
    ∧ breakpoint_interval z win_size peak
      = Some (if f_gt zr zl then (peak, peak + r + win_size)
              else (peak - r, peak + win_size)).
Proof.
  intros Hpeak. unfold breakpoint_interval, final_search_win_size.
  destruct (search_loop_spec (S (Z.to_nat peak)) z peak 1)
    as (r & Hr & Hle & Hall & Hnot); try lia.
  assert (Hin : 0 ≤ peak - r ∧ peak + r < len z).
  { destruct (decide (r = 1)) as [->|Hne]; [lia|].
    destruct (Hall (r - 1)) as (? & ? & _); lia. }
  destruct (py_index_in_range z (peak + r)) as [zr Hzr]; [lia|].
  destruct (py_index_in_range z (peak - r)) as [zl Hzl]; [lia|].
  exists r, zr, zl. rewrite Hr. cbn [mbind option_bind]. rewrite Hzr, Hzl.
  repeat (split; [done|]). reflexivity.
Qed.
End Peaks.

(** The peak at index 3 of a vector of 7 values. *)
Lemma breakpoint_interval_of_peak_witness :
  0 < 3 < len [0; 1; 5; 10; 4; 1; 0]%Q - 1
  ∧ ∃ r zr zl,
      @final_search_win_size exact_numerics [0; 1; 5; 10; 4; 1; 0]%Q 3 = Some r
      ∧ 1 ≤ r
      ∧ (∀ r', 1 ≤ r' < r → @widening_holds exact_numerics [0; 1; 5; 10; 4; 1; 0]%Q 3 r')
      ∧ ¬ @widening_holds exact_numerics [0; 1; 5; 10; 4; 1; 0]%Q 3 r
      ∧ py_index [0; 1; 5; 10; 4; 1; 0]%Q (3 + r) = Some zr
      ∧ py_index [0; 1; 5; 10; 4; 1; 0]%Q (3 - r) = Some zl
      ∧ @breakpoint_interval exact_numerics [0; 1; 5; 10; 4; 1; 0]%Q 100 3
        = Some (if @f_gt exact_numerics zr zl then (3, 3 + r + 100) else (3 - r, 3 + 100)).
Proof.
  split.
  - unfold len. simpl. lia.
  - apply (@breakpoint_interval_of_peak exact_numerics). unfold len. simpl. lia.
Defined.

(** On the example the radius stops at 2 and the interval opens to the left. *)
Example breakpoint_interval_example :
  @final_search_win_size exact_numerics [0; 1; 5; 10; 4; 1; 0]%Q 3 = Some 2
  ∧ @breakpoint_interval exact_numerics [0; 1; 5; 10; 4; 1; 0]%Q 100 3 = Some (1, 103).
Proof. split; vm_compute; reflexivity. Qed.

(** ** Z-scores of a window *)

(** C7.  With [scan_perm_num > 0], the population mean and standard
    deviation that z-score the counts of the real window are those of the
    counts of the final iteration of the permutation loop: the pattern
    z-scores use the mean and standard deviation of its 15 pattern counts,
    the summary z-scores those of its 9 summary counts.  The final
    iteration takes nothing but the generator from the iterations before
    it, so their counts have no effect. *)
Theorem zscores_from_last_permutation `{Numerics} (a b c d : list ascii)
    (scan_perm_num : Z) (g : rng) :
  length b = length a → length c = length a → length d = length a →
  0 < scan_perm_num →
  ∃ wc earlier g_last last_counts last_sums,
    window_counts scan_perm_num [a; b; c; d] g = Some wc
    ∧ perm_loop (Z.to_nat (scan_perm_num - 1)) [a; b; c; d] ([], [], g)
      = Some (earlier, g_last)
    ∧ perm_iteration [a; b; c; d] g_last
      = Some (last_counts, last_sums, gen_counts wc)
    ∧ length last_counts = 15%nat ∧ length last_sums = 9%nat
    ∧ p_counts wc = last_counts ∧ sum_p_counts wc = last_sums
    ∧ window_zscores wc
      = ((λ v, f_div (f_sub (of_int v) (np_mean last_counts)) (np_std last_counts))
           <$> pat_counts wc,
         (λ v, f_div (f_sub (of_int v) (np_mean last_sums)) (np_std last_sums))
           <$> sum_pat_counts wc).
Proof.
  intros Hb Hc Hd Hn.
  rewrite <- (rows_of_columns_of a b c d Hb Hc Hd).
  set (cols := columns_of a b c d).
  unfold window_counts. rewrite count_patterns_columns. cbn [mbind option_bind].
  destruct (sum_pattern_counts_total cols) as [sum0 Hsum0]. rewrite Hsum0.
  cbn [mbind option_bind].
  destruct (informative_sums_total cols sum0) as [real_sums Hreal]. rewrite Hreal.
  cbn [mbind option_bind].
  replace (Z.to_nat scan_perm_num) with (S (Z.to_nat (scan_perm_num - 1))) by lia.
  rewrite perm_loop_last.
  destruct (perm_loop_total (Z.to_nat (scan_perm_num - 1)) cols ([], [], g))
    as [[earlier g_last] Hearlier].
  rewrite Hearlier. cbn [mbind option_bind snd].
  destruct (perm_iteration_rows_of cols g_last) as (counts & sums & Hcounts & Hsums & Hiter).
  rewrite Hiter. cbn [mbind option_bind].
  eexists _, earlier, g_last, counts, sums.
  split; [reflexivity|]. split; [reflexivity|]. split; [exact Hiter|].
  rewrite count_patterns_columns in Hcounts. injection Hcounts as <-.
  split; [reflexivity|]. split.
  { unfold sum_pattern_counts in Hsums. simpl in Hsums. by injection Hsums as <-. }
  split; [reflexivity|]. split; reflexivity.
Qed.

(** Two permutations of an array of 3 columns. *)
Lemma zscores_from_last_permutation_witness :
  (length ["A"; "C"; "A"]%char = length ["A"; "A"; "A"]%char
   ∧ length ["C"; "C"; "A"]%char = length ["A"; "A"; "A"]%char
   ∧ length ["C"; "G"; "A"]%char = length ["A"; "A"; "A"]%char
   ∧ 0 < 2)
  ∧ ∃ wc earlier g_last last_counts last_sums,
    window_counts 2 [ ["A"; "A"; "A"]; ["A"; "C"; "A"]; ["C"; "C"; "A"]; ["C"; "G"; "A"] ]%char
      (constant_rng 0) = Some wc
    ∧ perm_loop (Z.to_nat (2 - 1))
        [ ["A"; "A"; "A"]; ["A"; "C"; "A"]; ["C"; "C"; "A"]; ["C"; "G"; "A"] ]%char
        ([], [], constant_rng 0) = Some (earlier, g_last)
    ∧ perm_iteration
        [ ["A"; "A"; "A"]; ["A"; "C"; "A"]; ["C"; "C"; "A"]; ["C"; "G"; "A"] ]%char g_last
      = Some (last_counts, last_sums, gen_counts wc)
    ∧ length last_counts = 15%nat ∧ length last_sums = 9%nat
    ∧ p_counts wc = last_counts ∧ sum_p_counts wc = last_sums
    ∧ @window_zscores exact_numerics wc
      = ((λ v, @f_div exact_numerics
                 (@f_sub exact_numerics (@of_int exact_numerics v)
                    (@np_mean exact_numerics last_counts))
                 (@np_std exact_numerics last_counts)) <$> pat_counts wc,
         (λ v, @f_div exact_numerics
                 (@f_sub exact_numerics (@of_int exact_numerics v)
                    (@np_mean exact_numerics last_sums))
                 (@np_std exact_numerics last_sums)) <$> sum_pat_counts wc).
Proof.
  split.
  - repeat split; lia.
  - apply (@zscores_from_last_permutation exact_numerics);
      [reflexivity | reflexivity | reflexivity | lia].
Defined.

(** ** Column permutations and the counts of a window *)

(** C10, as amended.  [count_patterns] returns the same 15 counts for an
    array and for the array with its columns jointly permuted; so every
    iteration of the permutation loop produces the pattern counts of the
    real window and [sum_pattern_counts] of them.  These summary counts
    agree with the summary counts of the real window at entries 3..8 and
    are 0 at entries 0..2, where the real window holds the informative-site
    sums of step (3). *)
Theorem count_patterns_permutation_invariant (a b c d : list ascii) (perm : list nat) :
  length b = length a → length c = length a → length d = length a →
  perm ≡ₚ seq 0 (length a) →
  ∃ a1 counts sums real_sums,
    permute_cols [a; b; c; d] perm = Some a1
    ∧ count_patterns [a; b; c; d] = Some counts
    ∧ count_patterns a1 = Some counts
    ∧ sum_pattern_counts counts = Some sums
    ∧ informative_sums counts sums = Some real_sums
    ∧ (∀ g, ∃ g', perm_iteration [a; b; c; d] g = Some (counts, sums, g'))
    ∧ take 3 sums = [0; 0; 0]
    ∧ drop 3 sums = drop 3 real_sums.
Proof.
  intros Hb Hc Hd Hp.
  rewrite <- (rows_of_columns_of a b c d Hb Hc Hd).
  set (cols := columns_of a b c d).
  assert (Hlen : length cols = length a) by (by apply length_columns_of).
  rewrite <- Hlen in Hp.
  destruct (count_patterns_permute_rows_of cols perm Hp) as (a1 & Ha1 & Hcount).
  destruct (sum_pattern_counts_total cols) as [sums Hsums].
  destruct (informative_sums_total cols sums) as [real_sums Hreal].
  exists a1, ((λ k, count_pattern k cols) <$> seq 0 15), sums, real_sums.
  split; [done|]. split; [apply count_patterns_columns|].
  split; [by rewrite Hcount, count_patterns_columns|].
  split; [done|]. split; [done|]. split.
  { intros g. destruct (perm_iteration_rows_of cols g) as (counts' & sums' & Hc' & Hs' & Hi).
    rewrite count_patterns_columns in Hc'.
    assert (counts' = (λ k, count_pattern k cols) <$> seq 0 15) as -> by congruence.
    assert (sums' = sums) as -> by congruence.
    eexists. exact Hi. }
  unfold sum_pattern_counts in Hsums. simpl in Hsums. injection Hsums as <-.
  unfold informative_sums in Hreal. simpl in Hreal. injection Hreal as <-.
  split; reflexivity.
Qed.

(** The columns of an array of 3 columns taken in the order 2, 0, 1. *)
Lemma count_patterns_permutation_invariant_witness :
  (length ["A"; "C"; "A"]%char = length ["A"; "A"; "A"]%char
   ∧ length ["C"; "C"; "A"]%char = length ["A"; "A"; "A"]%char
   ∧ length ["C"; "G"; "A"]%char = length ["A"; "A"; "A"]%char
   ∧ [2; 0; 1]%nat ≡ₚ seq 0 (length ["A"; "A"; "A"]%char))
  ∧ ∃ a1 counts sums real_sums,
    permute_cols [ ["A"; "A"; "A"]; ["A"; "C"; "A"]; ["C"; "C"; "A"]; ["C"; "G"; "A"] ]%char
      [2; 0; 1]%nat = Some a1
    ∧ count_patterns [ ["A"; "A"; "A"]; ["A"; "C"; "A"]; ["C"; "C"; "A"]; ["C"; "G"; "A"] ]%char
      = Some counts
    ∧ count_patterns a1 = Some counts
    ∧ sum_pattern_counts counts = Some sums
    ∧ informative_sums counts sums = Some real_sums
    ∧ (∀ g, ∃ g',
         perm_iteration [ ["A"; "A"; "A"]; ["A"; "C"; "A"]; ["C"; "C"; "A"]; ["C"; "G"; "A"] ]%char g
         = Some (counts, sums, g'))
    ∧ take 3 sums = [0; 0; 0]
    ∧ drop 3 sums = drop 3 real_sums.
Proof.
  assert (Hp : [2; 0; 1]%nat ≡ₚ seq 0 (length ["A"; "A"; "A"]%char)).
  { simpl. transitivity [0; 2; 1]%nat.
    - apply perm_swap.
    - apply perm_skip, perm_swap. }
  split.
  - split; [reflexivity|]. split; [reflexivity|]. split; [reflexivity | exact Hp].
  - apply count_patterns_permutation_invariant; [reflexivity | reflexivity | reflexivity | exact Hp].
Defined.

(** C10, as stated, fails on the first window of [example_triplet]: the
    iteration leaves 0 at entry 2 of its summary counts, the real window
    has the informative-site sum 1 there. *)
Lemma permuted_summary_counts_differ :
  ∃ w wc,
    make_window 2 0 (sequences example_triplet) (constant_rng 0) = Some w
    ∧ window_counts 1 (seq_array w) (gen_after w) = Some wc
    ∧ p_counts wc = pat_counts wc
    ∧ sum_p_counts wc = [0; 0; 0; 1; 0; 2; 0; 1; 0]
    ∧ sum_pat_counts wc = [0; 0; 1; 1; 0; 2; 0; 1; 0]
    ∧ sum_p_counts wc ≠ sum_pat_counts wc.
Proof.
  eexists _, _. split; [vm_compute; reflexivity|].
  split; [vm_compute; reflexivity|].
  cbn [p_counts pat_counts sum_p_counts sum_pat_counts].
  split; [reflexivity|]. split; [reflexivity|]. split; [reflexivity|]. discriminate.
Qed.

(** ** The window of an iteration *)

Lemma make_window_bounds (win_size window : Z) (seqs : list (list ascii)) (g : rng)
    (w : Window) :
  make_window win_size window seqs g = Some w →
  win_start w = 0 ∧ win_end w = win_size.
Proof.
  unfold make_window, window_bounds. intros Hw.
  bind_inv Hw. injection Hw as <-. split; reflexivity.
Qed.

Lemma range_from_lookup (fuel : nat) (start stop step : Z) (k : nat) (w : Z) :
  range_from fuel start stop step !! k = Some w → w = start + Z.of_nat k * step.
Proof.
  revert start k. induction fuel as [|fuel IH]; intros start k Hk; [discriminate|].
  cbn [range_from] in Hk. destruct (start <? stop); [|discriminate].
  destruct k as [|k]; [injection Hk as <-; lia|].
  apply IH in Hk. lia.
Qed.

(** The loop variable of iteration [k] is [k * step_size]. *)
Lemma py_range_lookup (stop step : Z) (windows : list Z) (k : nat) (w : Z) :
  py_range stop step = Some windows → windows !! k = Some w → w = Z.of_nat k * step.
Proof.
  unfold py_range. intros Hr Hk.
  destruct (step =? 0); [discriminate|]. destruct (step <? 0).
  - injection Hr as <-. discriminate.
  - injection Hr as <-. apply range_from_lookup in Hk. lia.
Qed.

(** The body of the loop over windows does not depend on the loop
    variable. *)
Lemma scan_window_ignores_window `{Numerics} `{Distances} (o : Options)
    (trp_names : list string) (st : scan_state) (window : Z) :
  scan_window o trp_names st window = scan_window o trp_names st 0.
Proof. reflexivity. Qed.

(** C1 fails on the code.  With 4 columns and [step_size = 1] the loop
    variable takes the values 0, 1, 2, 3, and the window of iteration 1 is
    still columns [0, 2): the rows of [seq_array] are taken from column 0,
    not from column [1 * step_size]. *)
Theorem window_does_not_advance :
  (∀ win_size window, window_bounds win_size window = (0, win_size))
  ∧ py_range 4 1 = Some [0; 1; 2; 3]
  ∧ window_bounds 2 1 = (0, 2)
  ∧ window_bounds 2 1 ≠ (1 * 1, 1 * 1 + 2)
  ∧ (w ← make_window 2 1 (sequences example_triplet) (constant_rng 0);
     Some (win_start w, win_end w, seq_array w))
    = Some (0, 2, [ ["C"; "A"]; ["C"; "G"]; ["G"; "T"]; ["C"; "A"] ]%char).
Proof.
  split; [reflexivity|]. split; [reflexivity|]. split; [reflexivity|].
  split; [discriminate|]. vm_compute. reflexivity.
Qed.

(** C2 fails on the code.  [d] is a view of the selected row, not a copy:
    after one window the first row of [triplet.sequences] has its first
    two symbols exchanged, and [execute] hands the triplet back changed. *)
Theorem fourth_sequence_shuffle_writes_through :
  sequences example_triplet
  = [ ["A"; "C"; "G"; "T"]; ["C"; "G"; "T"; "A"]; ["G"; "T"; "A"; "C"] ]%char
  ∧ (w ← make_window 2 0 (sequences example_triplet) (constant_rng 0);
     Some (selected_seq w, seqs_after w))
    = Some (0%nat, [ ["C"; "A"; "G"; "T"]; ["C"; "G"; "T"; "A"]; ["G"; "T"; "A"; "C"] ]%char)
  ∧ (w ← make_window 2 0 (sequences example_triplet) (constant_rng 0);
     Some (seqs_after w))
    ≠ Some (sequences example_triplet)
  ∧ (snd <$> @execute exact_numerics site_distances example_options 4
               [example_triplet] counting_rng)
    = Some [ {| names := ["A"; "B"; "C"]%string;
                sequences := [ ["C"; "A"; "G"; "T"]; ["C"; "G"; "T"; "A"];
                               ["G"; "T"; "A"; "C"] ]%char |} ].
Proof.
  split; [reflexivity|]. split; [vm_compute; reflexivity|].
  split; [vm_compute; discriminate|]. vm_compute. reflexivity.
Qed.

(** What a window does to the triplet: the window of the selected row is
    shuffled in place, and row [d] of [seq_array] is that row. *)
Lemma make_window_seqs_after (win_size window : Z) (seqs : list (list ascii)) (g : rng)
    (w : Window) :
  make_window win_size window seqs g = Some w →
  ∃ row,
    seqs !! selected_seq w = Some row
    ∧ seqs_after w
      = <[selected_seq w :=
            write_slice row 0 win_size
              (np_shuffle (py_slice row 0 win_size) (next_py g)).1]> seqs
    ∧ seq_array w !! 3%nat
      = (λ r, py_slice r 0 win_size) <$> seqs_after w !! selected_seq w.
Proof.
  unfold make_window, window_bounds. change (0 + win_size) with win_size. intros Hw.
  destruct (seqs !! 0%nat); [|discriminate]. destruct (seqs !! 1%nat); [|discriminate].
  destruct (seqs !! 2%nat); [|discriminate]. cbn [mbind option_bind] in Hw.
  unfold random_choice in Hw.
  destruct ([0; 1; 2]%nat !! _) as [sel|]; [|discriminate]. cbn [mbind option_bind] in Hw.
  unfold shuffle_view in Hw.
  destruct (seqs !! sel) as [row|] eqn:Hrow; [|discriminate]. cbn [mbind option_bind] in Hw.
  destruct (np_shuffle (py_slice row 0 win_size) (next_py g)) as [d g2] eqn:Hshuffle.
  cbn [mbind option_bind] in Hw. bind_inv Hw. injection Hw as <-.
  cbn [selected_seq seqs_after seq_array]. exists row. rewrite Hshuffle.
  split; [done|]. split; [done|].
  cbn [lookup list_lookup].
  match goal with H : _ !! sel = Some ?d |- _ => rewrite H end. reflexivity.
Qed.

(** ** The sum of the pattern counts *)

(** C3 fails on the code.  On the single column [A, A, C, C] the patterns
    1 ([ab]), 6 ([cd]) and 7 ([ab] and [cd]) all count the column: the 15
    counts sum to 3, the array has 1 column. *)
Theorem count_patterns_sum_exceeds_columns :
  count_patterns [ ["A"]; ["A"]; ["C"]; ["C"] ]%char
  = Some [0; 1; 0; 0; 0; 0; 1; 1; 0; 0; 0; 0; 0; 0; 0]
  ∧ (sum_list_Z <$> count_patterns [ ["A"]; ["A"]; ["C"]; ["C"] ]%char) = Some 3
  ∧ ncols [ ["A"]; ["A"]; ["C"]; ["C"] ]%char = 1%nat.
Proof. split; [vm_compute; reflexivity|]. split; vm_compute; reflexivity. Qed.

(** ** Validation of the options *)

Lemma validate_options_win_size (o : Options) (align_cols : Z) :
  win_size (validate_options o align_cols).1
  = if (win_size o <? 0) || (win_size o >? align_cols) then 200 else win_size o.
Proof.
  unfold validate_options.
  repeat (match goal with |- context [if ?c then _ else _] => destruct c end);
    reflexivity.
Qed.

(** C9 fails on the code.  [win_size = 0] passes the test
    [win_size < 0 or win_size > align.shape[1]]: it is kept, and nothing is
    printed about [win_size]. *)
Theorem validate_options_keeps_zero_win_size :
  validate_options
    {| win_size := 0; step_size := 20; strip_gaps := true;
       pvalue_perm_num := 1100; scan_perm_num := 100; random_seed := 3 |} 1000
  = ({| win_size := 0; step_size := 20; strip_gaps := true;
        pvalue_perm_num := 1100; scan_perm_num := 100; random_seed := 3 |},
     [("step_size"%string, 20)]).
Proof. vm_compute. reflexivity. Qed.

(** ** Merging *)

Section MergeTotal.
Context {score : Type} `{EqDecision score}.

Lemma list_remove_elem (x : Z * Z * score) (l : list (Z * Z * score)) :
  x ∈ l → ∃ l', list_remove x l = Some l' ∧ l ≡ₚ x :: l'.
Proof.
  induction l as [|y l IH]; intros Hx; [by apply elem_of_nil in Hx|].
  cbn [list_remove]. destruct (decide (x = y)) as [->|Hne].
  - by exists l.
  - apply elem_of_cons in Hx as [?|Hx]; [done|].
    destruct (IH Hx) as (l' & -> & Hl). exists (y :: l'). split; [reflexivity|].
    rewrite Hl. apply perm_swap.
Qed.

(** [list.remove] never raises in the inner loop: every region of the
    snapshot is still in the list when its turn comes. *)
Lemma merge_inner_total (old_regions cur : list (Z * Z * score)) (reg : Z * Z * score) :
  old_regions ⊆+ cur →
  ∃ reg' cur', merge_inner reg old_regions cur = Some (reg', cur')
    ∧ (length cur' ≤ length cur)%nat.
Proof.
  revert cur reg. induction old_regions as [|region2 rest IH]; intros cur reg Hsub.
  - exists reg, cur. by split.
  - cbn [merge_inner]. destruct reg as [[start end_] p_value].
    destruct region2 as [[start2 end2] p2].
    apply submseteq_cons_l in Hsub as (k & Hk & Hrest).
    destruct ((start <=? start2) && (start2 <=? end_) || (start <=? end2) && (end2 <=? end_)).
    + destruct (list_remove_elem (start2, end2, p2) cur) as (cur' & -> & Hcur).
      { rewrite Hk. by left. }
      cbn [mbind option_bind].
      assert (Hk' : k ≡ₚ cur') by (eapply Permutation_cons_inv; by rewrite <- Hk, <- Hcur).
      destruct (IH cur' (Z.min start start2, Z.max end_ end2, p_value)) as (reg' & cur'' & -> & Hlen).
      { by rewrite <- Hk'. }
      exists reg', cur''. split; [done|]. rewrite Hcur. simpl. lia.
    + apply IH. rewrite Hk. by apply submseteq_cons.
Qed.

(** The loop over the shrinking list ends within [fuel] iterations. *)
Lemma merge_outer_total (fuel i : nat) (cur merged : list (Z * Z * score)) :
  (length cur ≤ fuel + i)%nat → is_Some (merge_outer fuel i cur merged).
Proof.
  revert i cur merged. induction fuel as [|fuel IH]; intros i cur merged Hlen.
  - cbn [merge_outer]. rewrite lookup_ge_None_2 by lia. by eexists.
  - cbn [merge_outer]. destruct (cur !! i) as [reg|] eqn:Hi; [|by eexists].
    destruct (merge_inner_total cur cur reg) as (reg' & cur' & -> & Hlen'); [done|].
    cbn [mbind option_bind]. apply IH. lia.
Qed.

Lemma merge_key_total (regions : list (Z * Z * score)) : is_Some (merge_key regions).
Proof. apply merge_outer_total. lia. Qed.

(** [merge_breakpoints] returns, on every list of raw calls. *)
Lemma merge_breakpoints_total (raw : list (raw_call score)) :
  is_Some (merge_breakpoints raw).
Proof.
  unfold merge_breakpoints.
  assert (Hsome : is_Some (mapM merge_entry (gather raw))).
  { apply mapM_is_Some, Forall_forall. intros entry _. unfold merge_entry. simpl.
    destruct (merge_key_total (entry.2)) as [merged ->]. by eexists. }
  destruct Hsome as [per_key ->]. by eexists.
Qed.
End MergeTotal.

Section MergeLoss.
Context {score : Type} `{EqDecision score}.

Lemma list_remove_length (x : Z * Z * score) (l l' : list (Z * Z * score)) :
  list_remove x l = Some l' → length l = S (length l').
Proof.
  revert l'. induction l as [|y l IH]; intros l' Hl; [discriminate|].
  cbn [list_remove] in Hl. destruct (decide (x = y)).
  - by injection Hl as ->.
  - destruct (list_remove x l) as [l0|]; [|discriminate]. injection Hl as <-.
    simpl. f_equal. by apply IH.
Qed.

Lemma list_remove_subset (x y : Z * Z * score) (l l' : list (Z * Z * score)) :
  list_remove x l = Some l' → y ∈ l' → y ∈ l.
Proof.
  revert l'. induction l as [|z l IH]; intros l' Hl Hy; [discriminate|].
  cbn [list_remove] in Hl. destruct (decide (x = z)).
  - injection Hl as ->. by right.
  - destruct (list_remove x l) as [l0|]; [|discriminate]. injection Hl as <-.
    apply elem_of_cons in Hy as [->|Hy]; [by left|]. right. by apply (IH l0).
Qed.

Lemma merge_inner_subset (old_regions cur cur' : list (Z * Z * score))
    (reg reg' y : Z * Z * score) :
  merge_inner reg old_regions cur = Some (reg', cur') → y ∈ cur' → y ∈ cur.
Proof.
  revert cur reg. induction old_regions as [|region2 rest IH]; intros cur reg Hm Hy.
  - injection Hm as <- <-. done.
  - cbn [merge_inner] in Hm. destruct reg as [[start end_] p_value].
    destruct region2 as [[start2 end2] p2].
    destruct ((start <=? start2) && (start2 <=? end_) || (start <=? end2) && (end2 <=? end_)).
    + destruct (list_remove (start2, end2, p2) cur) as [cur1|] eqn:Hrem; [|discriminate].
      cbn [mbind option_bind] in Hm.
      eapply list_remove_subset; [exact Hrem|]. by eapply IH.
    + by eapply IH.
Qed.

(** A region that meets an interval with a bound inside its own removes
    at least one element of the list. *)
Lemma merge_inner_shrinks (old_regions cur cur' : list (Z * Z * score))
    (reg reg' r2 : Z * Z * score) :
  old_regions ⊆+ cur →
  r2 ∈ old_regions → reg.1.1 ≤ r2.1.1 ≤ reg.1.2 →
  merge_inner reg old_regions cur = Some (reg', cur') →
  (length cur' < length cur)%nat.
Proof.
  revert cur reg. induction old_regions as [|region2 rest IH]; intros cur reg Hsub Hin Hr2 Hm.
  - by apply elem_of_nil in Hin.
  - cbn [merge_inner] in Hm. destruct reg as [[start end_] p_value].
    destruct region2 as [[start2 end2] p2]. simpl in Hr2.
    apply submseteq_cons_l in Hsub as (k & Hk & Hrest).
    destruct ((start <=? start2) && (start2 <=? end_) || (start <=? end2) && (end2 <=? end_))
      eqn:Htest.
    + destruct (list_remove (start2, end2, p2) cur) as [cur1|] eqn:Hrem; [|discriminate].
      cbn [mbind option_bind] in Hm.
      pose proof (list_remove_length _ _ _ Hrem) as Hlen.
      destruct (list_remove_elem (start2, end2, p2) cur) as (cur1' & Hrem' & Hcur).
      { rewrite Hk. by left. }
      assert (cur1' = cur1) as -> by congruence.
      assert (Hk' : k ≡ₚ cur1) by (eapply Permutation_cons_inv; by rewrite <- Hk, <- Hcur).
      destruct (merge_inner_total rest cur1 (Z.min start start2, Z.max end_ end2, p_value))
        as (reg1 & cur2 & Hm' & Hle).
      { by rewrite <- Hk'. }
      rewrite Hm' in Hm. injection Hm as <- <-. lia.
    + apply elem_of_cons in Hin as [->|Hin].
      { simpl in Hr2. apply orb_false_iff in Htest as [Ht _].
        apply andb_false_iff in Ht as [Ht|Ht]; [apply Z.leb_gt in Ht|apply Z.leb_gt in Ht]; lia. }
      eapply (IH cur (start, end_, p_value)); try done.
      rewrite Hk. by apply submseteq_cons.
Qed.

(** Each iteration of the outer loop appends one region and shortens the
    list by at least one, so the number of regions output is at most half
    the number of regions in the list, rounded up. *)
Lemma merge_outer_length (fuel i : nat) (cur merged out : list (Z * Z * score)) :
  Forall well_formed cur →
  merge_outer fuel i cur merged = Some out →
  (2 * length out ≤ 2 * length merged + (length cur - i) + 1)%nat.
Proof.
  revert i cur merged. induction fuel as [|fuel IH]; intros i cur merged Hwf Hout.
  - cbn [merge_outer] in Hout. destruct (cur !! i); [discriminate|].
    injection Hout as <-. lia.
  - cbn [merge_outer] in Hout. destruct (cur !! i) as [reg|] eqn:Hi.
    2:{ injection Hout as <-. lia. }
    destruct (merge_inner reg cur cur) as [[reg' cur']|] eqn:Hm; [|discriminate].
    cbn [mbind option_bind] in Hout.
    assert (Hreg : reg ∈ cur) by (by eapply list_elem_of_lookup_2).
    assert (Hlt : (length cur' < length cur)%nat).
    { eapply (merge_inner_shrinks cur cur cur' reg reg' reg); try done.
      rewrite Forall_forall in Hwf. specialize (Hwf reg Hreg). unfold well_formed in Hwf. lia. }
    assert (Hwf' : Forall well_formed cur').
    { rewrite Forall_forall in Hwf |- *. intros y Hy. apply Hwf.
      by eapply merge_inner_subset. }
    apply IH in Hout; [|done]. rewrite length_app in Hout. simpl in Hout.
    apply lookup_lt_Some in Hi. lia.
Qed.

Lemma merge_key_length (regions out : list (Z * Z * score)) :
  Forall well_formed regions →
  merge_key regions = Some out →
  (2 * length out ≤ length regions + 1)%nat.
Proof.
  intros Hwf Hout. apply merge_outer_length in Hout; [|done]. simpl in Hout. lia.
Qed.
End MergeLoss.

(** The example of the source, [1, 5] and [3, 7], is merged into [1, 7];
    the disjoint interval [9, 10] after them is lost. *)
Example merge_breakpoints_overlap :
  merge_breakpoints
    [ RawCall "A" ["B"; "C"] 1 5 (5 # 1)%Q; RawCall "A" ["C"; "B"] 3 7 (6 # 1)%Q;
      RawCall "A" ["B"; "C"] 9 10 (7 # 1)%Q ]%string
  = Some [ RawCall "A" ["B"; "C"] 1 7 (5 # 1)%Q ]%string.
Proof. vm_compute. reflexivity. Qed.

(** C4 fails on the code.  Two calls of one key with disjoint intervals
    [1, 2] and [5, 6] are two overlap groups; the first region removes
    itself from the list the loop iterates over, the iterator is then past
    the end, and the second interval is never output. *)
Theorem merge_breakpoints_drops_interval :
  merge_breakpoints
    [ RawCall "A" ["B"; "C"] 1 2 (5 # 1)%Q; RawCall "A" ["B"; "C"] 5 6 (7 # 1)%Q ]%string
  = Some [ RawCall "A" ["B"; "C"] 1 2 (5 # 1)%Q ]%string.
Proof. vm_compute. reflexivity. Qed.

(** ** Correlation coefficients *)

Lemma all_items_equal_pair {A} `{EqDecision A} (v : A) : all_items_equal [v; v] = true.
Proof. unfold all_items_equal. simpl. by rewrite bool_decide_eq_true_2. Qed.

(** Once sequence 0 is degenerate the other two coefficients are 0,
    whatever their distance lists are. *)
Lemma r_coeff_first_degenerate `{Distances} (up down : list (list dist))
    (u0 d0 : list dist) :
  up !! 0%nat = Some u0 → down !! 0%nat = Some d0 →
  all_items_equal u0 || all_items_equal d0 = true →
  r_coeff up down = Some [NaN; Num 0; Num 0].
Proof.
  intros Hu Hd Hdeg. unfold r_coeff. rewrite Hu, Hd. cbn [mbind option_bind].
  by rewrite Hdeg.
Qed.

(** C5 fails on the code.  For three identical sequences every distance
    list has two equal values, whatever the distance is; sequence 0 takes
    the first branch of the [if]/[elif] chain and the coefficient of
    sequence 1 stays 0 instead of NaN. *)
Theorem second_coefficient_not_nan `{Distances} :
  ∃ up down u1 d1,
    upstream_dists identical_triplet (1, 3) = Some up
    ∧ downstream_dists identical_triplet (1, 3) = Some down
    ∧ up !! 1%nat = Some u1 ∧ down !! 1%nat = Some d1
    ∧ all_items_equal u1 = true ∧ all_items_equal d1 = true
    ∧ coefficients identical_triplet (1, 3) = Some [NaN; Num 0; Num 0].
Proof.
  set (u := jc_distance ["A"]%char ["A"]%char).
  set (v := jc_distance ["T"]%char ["T"]%char).
  assert (Hup : upstream_dists identical_triplet (1, 3) = Some [[u; u]; [u; u]; [u; u]])
    by reflexivity.
  assert (Hdown : downstream_dists identical_triplet (1, 3) = Some [[v; v]; [v; v]; [v; v]])
    by reflexivity.
  exists [[u; u]; [u; u]; [u; u]], [[v; v]; [v; v]; [v; v]], [u; u], [v; v].
  split; [done|]. split; [done|]. split; [done|]. split; [done|].
  split; [apply all_items_equal_pair|]. split; [apply all_items_equal_pair|].
  unfold coefficients. rewrite Hup, Hdown. cbn [mbind option_bind].
  unfold r_coeff. cbn [lookup list_lookup mbind option_bind].
  rewrite all_items_equal_pair. reflexivity.
Qed.

(** ** The recombinant *)

Lemma Qle_bool_false (p q : Q) : Qle_bool p q = false → (q < p)%Q.
Proof.
  intros Hpq. apply Qnot_le_lt. intros Hle. apply Qle_bool_iff in Hle. congruence.
Qed.

Lemma argmin_scan_spec (l pre : list coeff) (qm : Q) (min_ind : nat) :
  pre !! min_ind = Some (Num qm) →
  (∀ j rj, pre !! j = Some rj →
     ∃ qj, rj = Num qj ∧ (qm <= qj)%Q ∧ ((j < min_ind)%nat → (qm < qj)%Q)) →
  let k := argmin_scan (Num qm) min_ind (length pre) l in
  first_nan (pre ++ l) k ∨ first_minimum (pre ++ l) k.
Proof.
  revert pre qm min_ind. induction l as [|x l IH]; intros pre qm min_ind Hmin Hpre.
  - simpl. right. rewrite app_nil_r. exists qm. split; [done|]. exact Hpre.
  - cbn [argmin_scan]. destruct x as [|q].
    + simpl. left. split.
      * rewrite lookup_app_r, Nat.sub_diag by lia. reflexivity.
      * intros j rj Hj Hrj. rewrite lookup_app_l in Hrj by lia.
        destruct (Hpre j rj Hrj) as (qj & -> & _). reflexivity.
    + cbn [coeff_ge is_nan]. replace (pre ++ Num q :: l) with ((pre ++ [Num q]) ++ l)
        by (by rewrite <- app_assoc).
      assert (Hlen : length (pre ++ [Num q]) = S (length pre))
        by (rewrite length_app; simpl; lia).
      assert (Hlt : (min_ind < length pre)%nat) by (by eapply lookup_lt_Some).
      destruct (Qle_bool qm q) eqn:Hle; cbn [negb]; rewrite <- Hlen.
      * apply IH.
        -- rewrite lookup_app_l by lia. exact Hmin.
        -- intros j rj Hrj. apply lookup_app_Some in Hrj as [Hrj|[Hge Hrj]].
           ++ by apply Hpre.
           ++ destruct (j - length pre)%nat as [|n] eqn:Hn; [|by destruct n].
              injection Hrj as <-. exists q. split; [done|].
              apply Qle_bool_iff in Hle. split; [done|]. lia.
      * apply Qle_bool_false in Hle. apply IH.
        -- rewrite lookup_app_r, Nat.sub_diag by lia. reflexivity.
        -- intros j rj Hrj. apply lookup_app_Some in Hrj as [Hrj|[Hge Hrj]].
           ++ destruct (Hpre j rj Hrj) as (qj & -> & Hqj & _).
              exists qj. split; [done|]. split; [lra|]. intros _. lra.
           ++ destruct (j - length pre)%nat as [|n] eqn:Hn; [|by destruct n].
              injection Hrj as <-. exists q. split; [done|]. split; [lra|]. lia.
Qed.

Lemma np_argmin_spec (l : list coeff) :
  l ≠ [] → ∃ i, np_argmin l = Some i ∧ (first_nan l i ∨ first_minimum l i).
Proof.
  destruct l as [|x l]; [done|]. intros _. unfold np_argmin. destruct x as [|q]; simpl.
  - exists 0%nat. split; [done|]. left. split; [done|]. intros j rj Hj. lia.
  - eexists. split; [reflexivity|].
    apply (argmin_scan_spec l [Num q] q 0).
    + reflexivity.
    + intros [|j] rj Hrj; [|by destruct j]. injection Hrj as <-.
      exists q. split; [done|]. split; [lra|]. lia.
Qed.

Section IdentifyProps.
Context `{Distances}.

Lemma r_coeff_length (up down : list (list dist)) (r : list coeff) :
  r_coeff up down = Some r → length r = 3%nat.
Proof.
  unfold r_coeff. intros Hr.
  repeat match type of Hr with
  | mbind _ ?x = Some _ =>
      destruct x as [?|] eqn:?; [cbn [mbind option_bind] in Hr | discriminate Hr]
  | (if ?c then _ else _) = Some _ => destruct c
  end; by injection Hr as <-.
Qed.

(** C6, as amended.  [identify_recombinant] returns as recombinant the
    name at the index [np.argmin] selects among the three coefficients:
    the first name whose coefficient is NaN when some coefficient is NaN,
    and otherwise the first name whose coefficient is minimal.  The other
    two names are returned as parents, in the order of the triplet. *)
Theorem identify_recombinant_argmin (trp : Triplet) (aln_pos : Z * Z)
    (n0 n1 n2 : string) (r : list coeff) :
  names trp = [n0; n1; n2] →
  coefficients trp aln_pos = Some r →
  ∃ i rec_name,
    identify_recombinant trp aln_pos = Some (rec_name, delete i [n0; n1; n2])
    ∧ [n0; n1; n2] !! i = Some rec_name
    ∧ (first_nan r i ∨ first_minimum r i).
Proof.
  intros Hnames Hr. unfold identify_recombinant. rewrite Hr. cbn [mbind option_bind].
  assert (Hlen : length r = 3%nat).
  { unfold coefficients in Hr. bind_inv Hr. by eapply r_coeff_length. }
  destruct (np_argmin_spec r) as (i & Hi & Hspec); [by destruct r|].
  rewrite Hi. cbn [mbind option_bind].
  assert (Hlt : (i < 3)%nat).
  { rewrite <- Hlen. destruct Hspec as [[Hn _]|(qi & Hq & _)]; by eapply lookup_lt_Some. }
  rewrite Hnames.
  destruct (lookup_lt_is_Some_2 [n0; n1; n2] i) as [rec_name Hrec]; [simpl; lia|].
  rewrite Hrec. cbn [mbind option_bind]. by exists i, rec_name.
Qed.
End IdentifyProps.

(** The mosaic triplet, with no NaN among its coefficients. *)
Lemma identify_recombinant_argmin_witness :
  (names mosaic_triplet = ["A"; "B"; "C"]%string
   ∧ @coefficients site_distances mosaic_triplet (4, 6) = Some [Num (-1); Num 1; Num 1])
  ∧ ∃ i rec_name,
      @identify_recombinant site_distances mosaic_triplet (4, 6)
      = Some (rec_name, delete i ["A"; "B"; "C"]%string)
      ∧ ["A"; "B"; "C"]%string !! i = Some rec_name
      ∧ (first_nan [Num (-1); Num 1; Num 1] i ∨ first_minimum [Num (-1); Num 1; Num 1] i).
Proof.
  split.
  - split; reflexivity.
  - apply (@identify_recombinant_argmin site_distances mosaic_triplet (4, 6));
      reflexivity.
Defined.

(** On the mosaic triplet the recombinant is [A], the parents [B] and [C]. *)
Example identify_recombinant_mosaic :
  @identify_recombinant site_distances mosaic_triplet (4, 6)
  = Some ("A", ["B"; "C"])%string.
Proof. reflexivity. Qed.

(** C6, as stated, fails on three identical sequences: the coefficients
    are [NaN, 0, 0], not all of them NaN, and the recombinant returned is
    the sequence whose coefficient is NaN. *)
Lemma nan_coefficient_selected :
  @coefficients site_distances identical_triplet (1, 3) = Some [NaN; Num 0; Num 0]
  ∧ @identify_recombinant site_distances identical_triplet (1, 3)
    = Some ("A", ["B"; "C"])%string
  ∧ names identical_triplet !! 0%nat = Some "A"%string
  ∧ ¬ (∀ i r ri rec_name parents,
         @coefficients site_distances identical_triplet (1, 3) = Some r →
         @identify_recombinant site_distances identical_triplet (1, 3)
           = Some (rec_name, parents) →
         names identical_triplet !! i = Some rec_name →
         r !! i = Some ri →
         is_nan ri = true → ∀ rj, rj ∈ r → is_nan rj = true).
Proof.
  split; [reflexivity|]. split; [reflexivity|]. split; [reflexivity|].
  intros Hclaim.
  specialize (Hclaim 0%nat [NaN; Num 0; Num 0] NaN "A"%string ["B"; "C"]%string
                eq_refl eq_refl eq_refl eq_refl eq_refl (Num 0)).
  assert (Hin : Num 0 ∈ [NaN; Num 0; Num 0]) by (apply list_elem_of_lookup; by exists 1%nat).
  specialize (Hclaim Hin). discriminate.
Qed.

(** ** Validation of the options, again *)

Ltac case_if :=
  repeat match goal with
  | |- context [if ?c then _ else _] => destruct c eqn:?
  end.

Ltac zbool :=
  repeat match goal with
  | H : (_ || _) = true |- _ => apply orb_true_iff in H as [H|H]
  | H : (_ || _) = false |- _ => apply orb_false_iff in H as [? ?]
  | H : (_ <? _) = true |- _ => apply Z.ltb_lt in H
  | H : (_ <? _) = false |- _ => apply Z.ltb_ge in H
  | H : (_ <=? _) = true |- _ => apply Z.leb_le in H
  | H : (_ <=? _) = false |- _ => apply Z.leb_gt in H
  | H : (_ >? _) = true |- _ => rewrite Z.gtb_ltb in H
  | H : (_ >? _) = false |- _ => rewrite Z.gtb_ltb in H
  | H : (_ >=? _) = true |- _ => rewrite Z.geb_leb in H
  | H : (_ >=? _) = false |- _ => rewrite Z.geb_leb in H
  end.

(** X1.  Options inside their ranges ([0 <= win_size <= align.shape[1]],
    [0 <= step_size < win_size], the three other numbers positive) are
    returned as they are, and nothing is printed. *)
Theorem validate_options_valid (o : Options) (align_cols : Z) :
  0 ≤ win_size o ≤ align_cols →
  0 ≤ step_size o < win_size o →
  0 < pvalue_perm_num o → 0 < scan_perm_num o → 0 < random_seed o →
  validate_options o align_cols = (o, []).
Proof.
  intros Hw Hs Hp Hc Hr. destruct o as [w s sg p c r]. simpl in *.
  unfold validate_options. cbn [win_size step_size strip_gaps pvalue_perm_num
    scan_perm_num random_seed].
  case_if; zbool; try lia; reflexivity.
Qed.

(** The defaults of the constructor on an alignment of 1000 columns. *)
Lemma validate_options_valid_witness :
  (0 ≤ win_size default_options ≤ 1000
   ∧ 0 ≤ step_size default_options < win_size default_options
   ∧ 0 < pvalue_perm_num default_options ∧ 0 < scan_perm_num default_options
   ∧ 0 < random_seed default_options)
  ∧ validate_options default_options 1000 = (default_options, []).
Proof.
  split.
  - simpl. lia.
  - apply validate_options_valid; simpl; lia.
Defined.

(** X2.  What [validate_options] guarantees: [pvalue_perm_num],
    [scan_perm_num] and [random_seed] are positive; [win_size] is the
    default 200 or lies in [0, align.shape[1]]; [step_size] is the default
    20 or lies in [0, win_size) and is at most [align.shape[1]];
    [strip_gaps] is untouched.  The defaults themselves are not checked
    against the alignment. *)
Theorem validate_options_post (o : Options) (align_cols : Z) :
  (win_size (validate_options o align_cols).1 = 200
   ∨ 0 ≤ win_size (validate_options o align_cols).1 ≤ align_cols)
  ∧ (step_size (validate_options o align_cols).1 = 20
     ∨ (0 ≤ step_size (validate_options o align_cols).1
          < win_size (validate_options o align_cols).1
        ∧ step_size (validate_options o align_cols).1 ≤ align_cols))
  ∧ 0 < pvalue_perm_num (validate_options o align_cols).1
  ∧ 0 < scan_perm_num (validate_options o align_cols).1
  ∧ 0 < random_seed (validate_options o align_cols).1
  ∧ strip_gaps (validate_options o align_cols).1 = strip_gaps o.
Proof.
  destruct o as [w s sg p c r]. unfold validate_options.
  cbn [win_size step_size strip_gaps pvalue_perm_num scan_perm_num random_seed].
  case_if; cbn [fst win_size step_size strip_gaps pvalue_perm_num scan_perm_num random_seed];
    zbool; repeat split; try lia; try (right; lia); try (left; lia).
Qed.

Lemma validate_options_fst (o : Options) (align_cols : Z) :
  (validate_options o align_cols).1
  = let w := if (win_size o <? 0) || (win_size o >? align_cols) then 200 else win_size o in
    {| win_size := w;
       step_size := if (step_size o <? 0) || (step_size o >=? w) || (step_size o >? align_cols)
                    then 20 else step_size o;
       strip_gaps := strip_gaps o;
       pvalue_perm_num := if pvalue_perm_num o <=? 0 then 1100 else pvalue_perm_num o;
       scan_perm_num := if scan_perm_num o <=? 0 then 100 else scan_perm_num o;
       random_seed := if random_seed o <=? 0 then 3 else random_seed o |}.
Proof. unfold validate_options. case_if; reflexivity. Qed.

(** X3.  Validated options are a fixed point: validating them again
    against the same alignment changes no option. *)
Theorem validate_options_idempotent (o : Options) (align_cols : Z) :
  (validate_options (validate_options o align_cols).1 align_cols).1
  = (validate_options o align_cols).1.
Proof.
  rewrite (validate_options_fst (validate_options o align_cols).1).
  rewrite !validate_options_fst.
  cbn [win_size step_size strip_gaps pvalue_perm_num scan_perm_num random_seed].
  cbv zeta.
  assert (Hw : (if ((if (win_size o <? 0) || (win_size o >? align_cols) then 200 else win_size o) <? 0)
                   || ((if (win_size o <? 0) || (win_size o >? align_cols) then 200 else win_size o) >? align_cols)
                then 200 else (if (win_size o <? 0) || (win_size o >? align_cols) then 200 else win_size o))
               = (if (win_size o <? 0) || (win_size o >? align_cols) then 200 else win_size o)).
  { case_if; zbool; try lia; reflexivity. }
  rewrite Hw. f_equal.
  - set (w := if (win_size o <? 0) || (win_size o >? align_cols) then 200 else win_size o).
    clearbody w. clear Hw. case_if; zbool; try lia; reflexivity.
  - case_if; zbool; try lia; reflexivity.
  - case_if; zbool; try lia; reflexivity.
  - case_if; zbool; try lia; reflexivity.
Qed.

Section ConfigProps.
Variable py_int : string → option Z.

(** X4.  [set_options_from_config] returns exactly when [settings] has the
    five numeric keys with values [int] accepts and has the key
    [strip_gaps]; it raises otherwise. *)
Theorem set_options_from_config_Some (settings : gmap string string) :
  is_Some (set_options_from_config py_int settings)
  ↔ (∀ k, k ∈ numeric_keys → ∃ v z, settings !! k = Some v ∧ py_int v = Some z)
    ∧ is_Some (settings !! "strip_gaps"%string).
Proof.
  unfold set_options_from_config, numeric_keys. split.
  - intros [o Ho]. bind_inv Ho. split; [|by eexists].
    intros k Hk. repeat (apply elem_of_cons in Hk as [->|Hk]; [by eexists _, _|]).
    by apply elem_of_nil in Hk.
  - intros [Hnum [sg Hsg]].
    destruct (Hnum "win_size"%string) as (v1 & z1 & -> & Hz1); [repeat constructor|].
    destruct (Hnum "step_size"%string) as (v2 & z2 & -> & Hz2); [repeat constructor|].
    destruct (Hnum "pvalue_perm_num"%string) as (v3 & z3 & -> & Hz3); [repeat constructor|].
    destruct (Hnum "scan_perm_num"%string) as (v4 & z4 & -> & Hz4); [repeat constructor|].
    destruct (Hnum "random_seed"%string) as (v5 & z5 & -> & Hz5); [repeat constructor|].
    rewrite Hsg. cbn [mbind option_bind]. rewrite Hz1, Hz2, Hz3, Hz4, Hz5.
    cbn [mbind option_bind]. by eexists.
Qed.

(** X5.  An object built from a non-empty [settings] has validated
    options: [win_size] and [step_size] are not negative, the three other
    numbers are positive, and [strip_gaps] is true exactly when the
    setting is the string [True]. *)
Theorem init_from_settings (align_cols : Z) (kwargs : Options)
    (settings : gmap string string) (o : Options) (printed : list (string * Z)) :
  settings ≠ ∅ →
  __init__ py_int align_cols kwargs (Some settings) = Some (o, printed) →
  0 ≤ win_size o ∧ 0 ≤ step_size o
  ∧ 0 < pvalue_perm_num o ∧ 0 < scan_perm_num o ∧ 0 < random_seed o
  ∧ (strip_gaps o = true ↔ settings !! "strip_gaps"%string = Some "True"%string).
Proof.
  intros Hne Hinit. unfold __init__ in Hinit.
  destruct (decide (settings = ∅)); [done|].
  destruct (set_options_from_config py_int settings) as [o0|] eqn:Ho0; [|discriminate].
  cbn [mbind option_bind] in Hinit.
  assert (Ho : o = (validate_options o0 align_cols).1).
  { destruct (validate_options o0 align_cols). by injection Hinit as -> _. }
  pose proof (validate_options_post o0 align_cols) as (Hw & Hs & Hp & Hc & Hr & Hsg).
  rewrite <- Ho in *.
  split; [lia|]. split; [lia|]. split; [done|]. split; [done|]. split; [done|].
  rewrite Hsg. unfold set_options_from_config in Ho0. bind_inv Ho0.
  injection Ho0 as <-. cbn [strip_gaps]. rewrite bool_decide_eq_true.
  split; [by intros ->|]. intros Heq. by injection Heq.
Qed.
End ConfigProps.

(** A configuration read with decimal numerals: the lower-case [true] gives
    [strip_gaps = False], the negative [pvalue_perm_num] is replaced. *)
Lemma init_from_settings_witness :
  (example_settings ≠ ∅
   ∧ __init__ decimal_int 400 example_options (Some example_settings)
     = Some ({| win_size := 100; step_size := 0; strip_gaps := false;
                pvalue_perm_num := 1100; scan_perm_num := 50; random_seed := 3 |},
             [("pvalue_perm_num"%string, 1100)]))
  ∧ (0 ≤ 100 ∧ 0 ≤ 0 ∧ 0 < 1100 ∧ 0 < 50 ∧ 0 < 3
     ∧ (false = true ↔ example_settings !! "strip_gaps"%string = Some "True"%string)).
Proof.
  assert (Hne : example_settings ≠ ∅).
  { intros Heq. apply (f_equal (λ m : gmap string string, m !! "win_size"%string)) in Heq.
    vm_compute in Heq. discriminate. }
  assert (Hinit : __init__ decimal_int 400 example_options (Some example_settings)
     = Some ({| win_size := 100; step_size := 0; strip_gaps := false;
                pvalue_perm_num := 1100; scan_perm_num := 50; random_seed := 3 |},
             [("pvalue_perm_num"%string, 1100)])).
  { vm_compute. reflexivity. }
  split; [by split|].
  exact (init_from_settings decimal_int 400 example_options example_settings _ _ Hne Hinit).
Defined.

(** ** Scans without windows *)

Section ExecuteEdges.
Context `{Numerics} `{Distances}.



(** X7.  [step_size = 0] passes [validate_options] (next to a valid
    [win_size]), and [execute] then raises on the first triplet:
    [range(0, n, 0)] is a [ValueError]. *)
Theorem zero_step_size_raises (o : Options) (align_cols : Z) (trp : Triplet)
    (triplets : list Triplet) (g : rng) :
  step_size o = 0 → 0 < win_size o ≤ align_cols →
  step_size (validate_options o align_cols).1 = 0
  ∧ execute (validate_options o align_cols).1 align_cols (trp :: triplets) g = None.
Proof.
  intros Hs Hw.
  assert (Hstep : step_size (validate_options o align_cols).1 = 0).
  { rewrite validate_options_fst. cbn [step_size]. cbv zeta. rewrite Hs.
    replace ((win_size o <? 0) || (win_size o >? align_cols)) with false.
    - case_if; zbool; try lia; reflexivity.
    - symmetry. apply orb_false_iff. rewrite Z.gtb_ltb. split; apply Z.ltb_ge; lia. }
  split; [done|]. unfold execute. cbn [foldM scan_triplet]. rewrite Hstep.
  reflexivity.
Qed.
End ExecuteEdges.


(** The options the example configuration gives, on its first triplet. *)
Lemma zero_step_size_raises_witness :
  (step_size {| win_size := 100; step_size := 0; strip_gaps := false;
                pvalue_perm_num := 1100; scan_perm_num := 50; random_seed := 3 |} = 0
   ∧ 0 < win_size {| win_size := 100; step_size := 0; strip_gaps := false;
                     pvalue_perm_num := 1100; scan_perm_num := 50; random_seed := 3 |} ≤ 400)
  ∧ (step_size (validate_options
        {| win_size := 100; step_size := 0; strip_gaps := false;
           pvalue_perm_num := 1100; scan_perm_num := 50; random_seed := 3 |} 400).1 = 0
     ∧ @execute exact_numerics site_distances
         (validate_options
            {| win_size := 100; step_size := 0; strip_gaps := false;
               pvalue_perm_num := 1100; scan_perm_num := 50; random_seed := 3 |} 400).1
         400 (example_triplet :: []) counting_rng = None).
Proof.
  split.
  - simpl. lia.
  - apply (@zero_step_size_raises exact_numerics site_distances); simpl; lia.
Defined.

(** ** Bounds on the pattern counts *)

Lemma count_pattern_bounds (k : nat) (cols : list column) :
  0 ≤ count_pattern k cols ≤ len cols.
Proof.
  unfold count_pattern.
  pose proof (np_sum_bounds ((λ x, default false (patterns x !! k)) <$> cols)) as Hb.
  unfold len in *. by rewrite length_fmap in Hb.
Qed.

(** X8.  On a 4-row array of [L] columns [count_patterns] returns 15
    counts, each between 0 and [L]. *)
Theorem count_patterns_bounds (a b c d : list ascii) :
  length b = length a → length c = length a → length d = length a →
  ∃ counts, count_patterns [a; b; c; d] = Some counts
    ∧ length counts = 15%nat
    ∧ Forall (λ n, 0 ≤ n ≤ len a) counts.
Proof.
  intros Hb Hc Hd.
  rewrite <- (rows_of_columns_of a b c d Hb Hc Hd), count_patterns_columns.
  eexists. split; [reflexivity|]. split; [reflexivity|].
  apply Forall_fmap, Forall_forall. intros k _. simpl.
  pose proof (count_pattern_bounds k (columns_of a b c d)) as Hk.
  unfold len in *. by rewrite length_columns_of in Hk.
Qed.

(** An array of 3 columns. *)
Lemma count_patterns_bounds_witness :
  (length ["A"; "C"; "A"]%char = length ["A"; "A"; "A"]%char
   ∧ length ["C"; "C"; "A"]%char = length ["A"; "A"; "A"]%char
   ∧ length ["C"; "G"; "A"]%char = length ["A"; "A"; "A"]%char)
  ∧ ∃ counts,
      count_patterns [ ["A"; "A"; "A"]; ["A"; "C"; "A"]; ["C"; "C"; "A"]; ["C"; "G"; "A"] ]%char = Some counts
      ∧ length counts = 15%nat
      ∧ Forall (λ n, 0 ≤ n ≤ len ["A"; "A"; "A"]%char) counts.
Proof.
  split.
  - split; [reflexivity|]. split; reflexivity.
  - apply count_patterns_bounds; reflexivity.
Defined.

(** X9.  On a 4-row array of [L] columns the 15 counts sum to [L] plus
    twice the number of columns made of two pairs of equal symbols
    ([ab|cd], [ac|bd], [ad|bc]); so the sum lies between [L] and [3 * L]. *)
Theorem count_patterns_total_count (a b c d : list ascii) :
  length b = length a → length c = length a → length d = length a →
  ∃ counts, count_patterns [a; b; c; d] = Some counts
    ∧ sum_list_Z counts = len a + 2 * np_sum (two_pairs <$> columns_of a b c d)
    ∧ len a ≤ sum_list_Z counts ≤ 3 * len a.
Proof.
  intros Hb Hc Hd.
  destruct (count_patterns_sum a b c d Hb Hc Hd) as (counts & Hcounts & _ & Hsum).
  exists counts. split; [done|]. split; [done|].
  pose proof (np_sum_bounds (two_pairs <$> columns_of a b c d)) as Hp.
  unfold len in Hp. rewrite length_fmap, length_columns_of in Hp by done.
  rewrite Hsum. unfold len. lia.
Qed.

(** An array of 3 columns, the first made of two pairs. *)
Lemma count_patterns_total_count_witness :
  (length ["A"; "C"; "A"]%char = length ["A"; "A"; "A"]%char
   ∧ length ["C"; "C"; "A"]%char = length ["A"; "A"; "A"]%char
   ∧ length ["C"; "G"; "A"]%char = length ["A"; "A"; "A"]%char)
  ∧ ∃ counts,
      count_patterns [ ["A"; "A"; "A"]; ["A"; "C"; "A"]; ["C"; "C"; "A"]; ["C"; "G"; "A"] ]%char = Some counts
      ∧ sum_list_Z counts
        = len ["A"; "A"; "A"]%char
          + 2 * np_sum (two_pairs <$> columns_of ["A"; "A"; "A"]%char ["A"; "C"; "A"]%char
                                        ["C"; "C"; "A"]%char ["C"; "G"; "A"]%char)
      ∧ len ["A"; "A"; "A"]%char ≤ sum_list_Z counts ≤ 3 * len ["A"; "A"; "A"]%char.
Proof.
  split.
  - split; [reflexivity|]. split; reflexivity.
  - apply count_patterns_total_count; reflexivity.
Defined.

(** ** The fourth row of a window *)

Lemma vand_nil_r (u : list bool) : u &&& [] = [].
Proof. by destruct u. Qed.

Lemma np_sum_vand_l (u v : list bool) : np_sum (u &&& v) ≤ np_sum u.
Proof.
  revert v. induction u as [|x u IH]; intros v; [reflexivity|].
  destruct v as [|y v].
  - rewrite vand_nil_r. pose proof (np_sum_bounds (x :: u)) as Hb.
    change (np_sum []) with 0. lia.
  - unfold vand in *. cbn [zip_with]. rewrite !np_sum_cons. specialize (IH v).
    destruct x, y; simpl; lia.
Qed.

Lemma np_sum_vand_r (u v : list bool) : np_sum (u &&& v) ≤ np_sum v.
Proof.
  revert v. induction u as [|x u IH]; intros v.
  - pose proof (np_sum_bounds v) as Hb. change (np_sum ([] &&& v)) with 0. lia.
  - destruct v as [|y v]; [by rewrite vand_nil_r|].
    unfold vand in *. cbn [zip_with]. rewrite !np_sum_cons. specialize (IH v).
    destruct x, y; simpl; lia.
Qed.

Lemma np_sum_vnot_veq_same (a : list ascii) : np_sum (vnot (veq a a)) = 0.
Proof.
  induction a as [|x a IH]; [reflexivity|].
  unfold vnot, veq in *. cbn [zip_with fmap list_fmap]. rewrite np_sum_cons.
  rewrite Ascii.eqb_refl. simpl. exact IH.
Qed.

Lemma make_window_fourth_row (win_size window : Z) (seqs : list (list ascii)) (g : rng)
    (w : Window) :
  make_window win_size window seqs g = Some w →
  ∃ a b c d, seq_array w = [a; b; c; d] ∧ (d = a ∨ d = b ∨ d = c)
    ∧ (selected_seq w < 3)%nat.
Proof.
  unfold make_window, window_bounds. intros Hw.
  destruct (seqs !! 0%nat); [|discriminate]. destruct (seqs !! 1%nat); [|discriminate].
  destruct (seqs !! 2%nat); [|discriminate]. cbn [mbind option_bind] in Hw.
  unfold random_choice in Hw.
  destruct ([0; 1; 2]%nat !! _) as [sel|] eqn:Hsel; [|discriminate].
  cbn [mbind option_bind] in Hw.
  assert (Hcases : sel = 0%nat ∨ sel = 1%nat ∨ sel = 2%nat).
  { apply list_elem_of_lookup_2 in Hsel.
    repeat (apply elem_of_cons in Hsel as [Hsel|Hsel]; [tauto|]).
    by apply elem_of_nil in Hsel. }
  destruct (shuffle_view seqs sel 0 (0 + win_size) (next_py g)) as [[seqs' g2]|];
    [|discriminate].
  cbn [mbind option_bind] in Hw.
  destruct (seqs' !! 0%nat) as [a|] eqn:Ha; [|discriminate].
  destruct (seqs' !! 1%nat) as [b|] eqn:Hb; [|discriminate].
  destruct (seqs' !! 2%nat) as [c|] eqn:Hc; [|discriminate].
  cbn [mbind option_bind] in Hw.
  destruct (seqs' !! sel) as [d|] eqn:Hd; [|discriminate].
  cbn [mbind option_bind] in Hw. injection Hw as <-. cbn [seq_array selected_seq].
  eexists _, _, _, _. split; [reflexivity|].
  split; [|lia].
  destruct Hcases as [-> | [-> | ->]]; [left|right; left|right; right]; congruence.
Qed.

(** X11.  In every window the fourth row of [seq_array] is one of the
    first three rows as the shuffle left it, so no column has four
    different symbols: pattern 0 is never counted. *)
Theorem window_never_counts_pattern_zero (win_size window : Z)
    (seqs : list (list ascii)) (g : rng) (w : Window) :
  make_window win_size window seqs g = Some w →
  ∃ counts, count_patterns (seq_array w) = Some counts ∧ counts !! 0%nat = Some 0.
Proof.
  intros Hw. destruct (make_window_fourth_row _ _ _ _ _ Hw) as (a & b & c & d & -> & Hd & _).
  eexists. split; [reflexivity|]. cbn [lookup list_lookup]. f_equal.
  set (p0 := np_sum _).
  assert (Hge : 0 ≤ p0) by apply np_sum_bounds.
  assert (Hle : p0 ≤ 0); [|lia]. subst p0.
  destruct Hd as [-> | [-> | ->]].
  - etransitivity; [apply np_sum_vand_l|]. etransitivity; [apply np_sum_vand_l|].
    etransitivity; [apply np_sum_vand_l|]. etransitivity; [apply np_sum_vand_r|].
    by rewrite np_sum_vnot_veq_same.
  - etransitivity; [apply np_sum_vand_l|]. etransitivity; [apply np_sum_vand_r|].
    by rewrite np_sum_vnot_veq_same.
  - etransitivity; [apply np_sum_vand_r|]. by rewrite np_sum_vnot_veq_same.
Qed.

(** The first window of the example triplet. *)
Lemma window_never_counts_pattern_zero_witness :
  ∃ w, make_window 2 0 (sequences example_triplet) (constant_rng 0) = Some w
    ∧ ∃ counts, count_patterns (seq_array w) = Some counts ∧ counts !! 0%nat = Some 0.
Proof.
  eexists. split.
  - vm_compute. reflexivity.
  - apply (window_never_counts_pattern_zero 2 0 (sequences example_triplet) (constant_rng 0)).
    vm_compute. reflexivity.
Defined.

(** ** What the scan does to the triplets *)

Lemma drop_length_take {A} (k : nat) (l : list A) :
  drop (length (take k l)) l = drop k l.
Proof.
  rewrite length_take. destruct (decide (k ≤ length l)%nat).
  - by rewrite Nat.min_l by lia.
  - rewrite Nat.min_r by lia. by rewrite !drop_ge by lia.
Qed.

Lemma write_slice_Permutation {A} (row d : list A) (lo hi : Z) :
  d ≡ₚ py_slice row lo hi → write_slice row lo hi d ≡ₚ row.
Proof.
  intros Hd. unfold write_slice. unfold py_slice in Hd.
  set (lo' := Z.to_nat (slice_bound (len row) lo)) in *.
  set (k := Z.to_nat (slice_bound (len row) hi - slice_bound (len row) lo)) in *.
  rewrite (Permutation_length Hd), Hd.
  rewrite <- drop_drop, drop_length_take, take_drop, take_drop. reflexivity.
Qed.

Lemma slice_bound_nonneg (n i : Z) : 0 ≤ i → slice_bound n i = Z.min i n.
Proof.
  intros Hi. unfold slice_bound.
  by replace (i <? 0) with false by (symmetry; apply Z.ltb_ge; lia).
Qed.

Lemma write_slice_outside {A} (row d : list A) (hi : Z) :
  0 ≤ hi → length d = length (py_slice row 0 hi) →
  drop (Z.to_nat hi) (write_slice row 0 hi d) = drop (Z.to_nat hi) row.
Proof.
  intros Hhi Hlen. unfold write_slice, py_slice in *.
  rewrite !slice_bound_nonneg in * by lia.
  replace (Z.to_nat (Z.min 0 (len row))) with 0%nat in * by (unfold len; lia).
  replace (Z.min hi (len row) - Z.min 0 (len row)) with (Z.min hi (len row)) in *
    by (unfold len; lia).
  rewrite drop_0 in Hlen. rewrite take_0. cbn [app Nat.add].
  rewrite length_take in Hlen.
  destruct (decide (Z.to_nat hi ≤ length row)%nat) as [Hle|Hgt].
  - replace (Z.to_nat (Z.min hi (len row))) with (Z.to_nat hi) in Hlen by (unfold len; lia).
    rewrite Nat.min_l in Hlen by lia.
    rewrite drop_app_length' by lia. by rewrite Hlen.
  - rewrite !drop_ge; [done|lia|].
    rewrite length_app, length_drop. unfold len in Hlen. lia.
Qed.

Lemma make_window_permutes (win_size window : Z) (seqs : list (list ascii))
    (g : rng) (w : Window) :
  make_window win_size window seqs g = Some w → Forall2 (≡ₚ) (seqs_after w) seqs.
Proof.
  intros Hw. destruct (make_window_seqs_after _ _ _ _ _ Hw) as (row & Hrow & -> & _).
  rewrite <- (list_insert_id seqs (selected_seq w) row) at 2 by done.
  apply Forall2_insert; [reflexivity|].
  apply write_slice_Permutation, np_shuffle_Permutation.
Qed.

(** X12.  A window leaves every row of the triplet a permutation of what
    it was; the rows it did not select are unchanged, and so are the
    columns from [win_size] on in every row. *)
Theorem make_window_preserves_rows (win_size window : Z) (seqs : list (list ascii))
    (g : rng) (w : Window) :
  make_window win_size window seqs g = Some w →
  Forall2 (≡ₚ) (seqs_after w) seqs
  ∧ (∀ i, i ≠ selected_seq w → seqs_after w !! i = seqs !! i)
  ∧ (0 ≤ win_size →
     Forall2 (λ row' row, drop (Z.to_nat win_size) row' = drop (Z.to_nat win_size) row)
       (seqs_after w) seqs).
Proof.
  intros Hw. split; [by eapply make_window_permutes|].
  destruct (make_window_seqs_after _ _ _ _ _ Hw) as (row & Hrow & -> & _).
  set (d := (np_shuffle (py_slice row 0 win_size) (next_py g)).1).
  assert (Hd : d ≡ₚ py_slice row 0 win_size) by apply np_shuffle_Permutation.
  split.
  - intros i Hi. by rewrite list_lookup_insert_ne.
  - intros Hws. rewrite <- (list_insert_id seqs (selected_seq w) row) at 2 by done.
    apply Forall2_insert; [by apply Forall_Forall2_diag, Forall_true|].
    apply write_slice_outside; [done|]. by rewrite Hd.
Qed.

(** The first window of the example triplet. *)
Lemma make_window_preserves_rows_witness :
  ∃ w, make_window 2 0 (sequences example_triplet) (constant_rng 0) = Some w
    ∧ Forall2 (≡ₚ) (seqs_after w) (sequences example_triplet)
    ∧ (∀ i, i ≠ selected_seq w → seqs_after w !! i = sequences example_triplet !! i)
    ∧ (0 ≤ 2 →
       Forall2 (λ row' row, drop (Z.to_nat 2) row' = drop (Z.to_nat 2) row)
         (seqs_after w) (sequences example_triplet)).
Proof.
  eexists. split.
  - vm_compute. reflexivity.
  - apply (make_window_preserves_rows 2 0 (sequences example_triplet) (constant_rng 0)).
    vm_compute. reflexivity.
Defined.

Section ScanInvariant.
Context `{Numerics} `{Distances}.

Lemma scan_window_preserves_rows (o : Options) (trp_names : list string)
    (st st' : scan_state) (window : Z) :
  scan_window o trp_names st window = Some st' →
  Forall2 (≡ₚ) (st'.1.1) (st.1.1).
Proof.
  destruct st as [[seqs g] raw]. unfold scan_window. intros Hs.
  destruct (make_window (win_size o) window seqs g) as [w|] eqn:Hw; [|discriminate].
  cbn [mbind option_bind] in Hs.
  destruct (window_counts (scan_perm_num o) (seq_array w) (gen_after w)) as [c|];
    [|discriminate].
  cbn [mbind option_bind] in Hs. destruct (window_zscores c) as [pz sz].
  bind_inv Hs. injection Hs as <-. cbn [fst].
  by apply make_window_permutes in Hw.
Qed.

Lemma scan_windows_preserve_rows (o : Options) (trp_names : list string)
    (windows : list Z) (st st' : scan_state) :
  foldM (scan_window o trp_names) st windows = Some st' →
  Forall2 (≡ₚ) (st'.1.1) (st.1.1).
Proof.
  revert st. induction windows as [|window windows IH]; intros st Hf.
  - injection Hf as <-. reflexivity.
  - cbn [foldM] in Hf.
    destruct (scan_window o trp_names st window) as [st1|] eqn:Hs; [|discriminate].
    cbn [mbind option_bind] in Hf. apply IH in Hf.
    apply scan_window_preserves_rows in Hs. by etransitivity.
Qed.

Lemma scan_triplets_preserve_rows (o : Options) (align_cols : Z)
    (triplets done done' : list Triplet) (g g' : rng) (raw raw' : list (raw_call float)) :
  foldM (scan_triplet o align_cols) (done, g, raw) triplets = Some (done', g', raw') →
  ∃ scanned, done' = done ++ scanned
    ∧ Forall2 (λ t' t, names t' = names t ∧ Forall2 (≡ₚ) (sequences t') (sequences t))
        scanned triplets.
Proof.
  revert done g raw. induction triplets as [|trp triplets IH]; intros done g raw Hf.
  - injection Hf as <- _ _. exists []. by rewrite app_nil_r.
  - cbn [foldM scan_triplet] in Hf.
    destruct (py_range align_cols (step_size o)) as [windows|]; [|discriminate].
    cbn [mbind option_bind] in Hf.
    destruct (foldM (scan_window o (names trp)) (sequences trp, g, raw) windows)
      as [[[seqs1 g1] raw1]|] eqn:Hw; [|discriminate].
    cbn [mbind option_bind] in Hf.
    apply scan_windows_preserve_rows in Hw. cbn [fst] in Hw.
    apply IH in Hf as (scanned & -> & Hsc).
    exists ({| names := names trp; sequences := seqs1 |} :: scanned).
    split; [by rewrite <- app_assoc|]. by constructor.
Qed.

(** X13.  [execute] hands back as many triplets as it was given, with their
    names, and every row of every triplet is a permutation of the row it
    was: the scan reorders symbols inside rows and changes nothing else of
    the triplets. *)
Theorem execute_preserves_triplets (o : Options) (align_cols : Z)
    (triplets triplets' : list Triplet) (g : rng) (results : list (raw_call float)) :
  execute o align_cols triplets g = Some (results, triplets') →
  Forall2 (λ t' t, names t' = names t ∧ Forall2 (≡ₚ) (sequences t') (sequences t))
    triplets' triplets.
Proof.
  unfold execute. intros He.
  destruct (foldM (scan_triplet o align_cols) ([], g, []) triplets)
    as [[[done' g'] raw']|] eqn:Hf; [|discriminate].
  cbn [mbind option_bind] in He.
  destruct (merge_breakpoints raw'); [|discriminate].
  cbn [mbind option_bind] in He. injection He as _ <-.
  by apply scan_triplets_preserve_rows in Hf as (scanned & -> & Hsc).
Qed.
End ScanInvariant.

(** A scan of the example triplet in two windows. *)
Lemma execute_preserves_triplets_witness :
  ∃ results triplets',
    @execute exact_numerics site_distances example_options 4 [example_triplet] counting_rng
    = Some (results, triplets')
    ∧ Forall2 (λ t' t, names t' = names t ∧ Forall2 (≡ₚ) (sequences t') (sequences t))
        triplets' [example_triplet].
Proof.
  eexists _, _. split.
  - vm_compute. reflexivity.
  - eapply (@execute_preserves_triplets exact_numerics site_distances example_options 4
              [example_triplet] _ counting_rng).
    vm_compute. reflexivity.
Defined.

(** ** The counts of a window do not depend on the permutations *)

Lemma perm_loop_counts (n : nat) (cols : list column) (st : list Z * list Z * rng) :
  ∃ g', perm_loop (S n) (rows_of cols) st
        = Some ((λ k, count_pattern k cols) <$> seq 0 15,
                default [] (sum_pattern_counts ((λ k, count_pattern k cols) <$> seq 0 15)),
                g').
Proof.
  rewrite perm_loop_last.
  destruct (perm_loop_total n cols st) as [st' ->]. cbn [mbind option_bind].
  destruct (perm_iteration_rows_of cols (st'.2)) as (counts & sums & Hc & Hs & ->).
  rewrite count_patterns_columns in Hc.
  assert (counts = (λ k, count_pattern k cols) <$> seq 0 15) as -> by congruence.
  rewrite Hs. by eexists.
Qed.

(** X14.  On a 4-row array the counts of a window do not depend on
    [scan_perm_num] (once it is positive) nor on the generator: the
    permutation loop ends with the pattern counts of the array itself and
    [sum_pattern_counts] of them. *)
Theorem window_counts_independent (a b c d : list ascii) :
  length b = length a → length c = length a → length d = length a →
  ∃ counts sums real_sums,
    count_patterns [a; b; c; d] = Some counts
    ∧ sum_pattern_counts counts = Some sums
    ∧ informative_sums counts sums = Some real_sums
    ∧ ∀ scan_perm_num g, 0 < scan_perm_num →
        ∃ wc, window_counts scan_perm_num [a; b; c; d] g = Some wc
          ∧ pat_counts wc = counts ∧ sum_pat_counts wc = real_sums
          ∧ p_counts wc = counts ∧ sum_p_counts wc = sums.
Proof.
  intros Hb Hc Hd.
  rewrite <- (rows_of_columns_of a b c d Hb Hc Hd).
  set (cols := columns_of a b c d).
  destruct (sum_pattern_counts_total cols) as [sums Hsums].
  destruct (informative_sums_total cols sums) as [real_sums Hreal].
  exists ((λ k, count_pattern k cols) <$> seq 0 15), sums, real_sums.
  split; [apply count_patterns_columns|]. split; [done|]. split; [done|].
  intros n g Hn. unfold window_counts.
  rewrite count_patterns_columns. cbn [mbind option_bind].
  rewrite Hsums. cbn [mbind option_bind]. rewrite Hreal. cbn [mbind option_bind].
  replace (Z.to_nat n) with (S (Z.to_nat (n - 1))) by lia.
  destruct (perm_loop_counts (Z.to_nat (n - 1)) cols ([], [], g)) as [g' ->].
  cbn [mbind option_bind]. eexists. split; [reflexivity|].
  cbn [pat_counts sum_pat_counts p_counts sum_p_counts]. rewrite Hsums. done.
Qed.

(** An array of 3 columns. *)
Lemma window_counts_independent_witness :
  (length ["A"; "C"; "A"]%char = length ["A"; "A"; "A"]%char
   ∧ length ["C"; "C"; "A"]%char = length ["A"; "A"; "A"]%char
   ∧ length ["C"; "G"; "A"]%char = length ["A"; "A"; "A"]%char)
  ∧ ∃ counts sums real_sums,
      count_patterns [ ["A"; "A"; "A"]; ["A"; "C"; "A"]; ["C"; "C"; "A"]; ["C"; "G"; "A"] ]%char = Some counts
      ∧ sum_pattern_counts counts = Some sums
      ∧ informative_sums counts sums = Some real_sums
      ∧ ∀ scan_perm_num g, 0 < scan_perm_num →
          ∃ wc, window_counts scan_perm_num [ ["A"; "A"; "A"]; ["A"; "C"; "A"]; ["C"; "C"; "A"]; ["C"; "G"; "A"] ]%char g = Some wc
            ∧ pat_counts wc = counts ∧ sum_pat_counts wc = real_sums
            ∧ p_counts wc = counts ∧ sum_p_counts wc = sums.
Proof.
  split.
  - split; [reflexivity|]. split; reflexivity.
  - apply window_counts_independent; reflexivity.
Defined.

(** ** What merging returns *)

Lemma sorted_names_pair (a b : string) : sorted_names [a; b] = sorted_names [b; a].
Proof.
  unfold sorted_names. cbn [foldl insert_sorted]. unfold String.ltb.
  rewrite (String.compare_antisym a b).
  destruct (String.compare b a) eqn:Hc; cbn [CompOpp]; try reflexivity.
  apply String.compare_eq_iff in Hc. by subst.
Qed.

Section MergeProps.
Context {score : Type} `{EqDecision score}.

Lemma gather_same_calls (raw raw' : list (raw_call score)) :
  Forall2 same_call raw raw' → gather raw = gather raw'.
Proof.
  unfold gather. generalize (@nil (string * list string * list (Z * Z * score))).
  intros d Hf. revert d. induction Hf as [|c c' raw raw' Hc Hf IH]; intros d; [done|].
  cbn [foldl]. rewrite IH. f_equal.
  destruct Hc as (-> & -> & -> & -> & [->|(a & b & -> & ->)]); [done|].
  by rewrite sorted_names_pair.
Qed.

(** X24.  The order in which a call lists its two parents does not matter:
    calls that differ only in that order are gathered under one key and
    [merge_breakpoints] returns the same regions. *)
Theorem merge_breakpoints_parent_order (raw raw' : list (raw_call score)) :
  Forall2 same_call raw raw' → merge_breakpoints raw = merge_breakpoints raw'.
Proof. intros Hf. unfold merge_breakpoints. by rewrite (gather_same_calls raw raw'). Qed.

(** ** Where the merged regions come from *)

Lemma merge_inner_widens (regions old_regions cur cur' : list (Z * Z * score))
    (seed reg reg' : Z * Z * score) :
  (∀ x, x ∈ old_regions → x ∈ regions) →
  widened_from regions reg seed →
  merge_inner reg old_regions cur = Some (reg', cur') →
  widened_from regions reg' seed.
Proof.
  revert cur reg. induction old_regions as [|region2 rest IH]; intros cur reg Hsub Hreg Hm.
  - by injection Hm as <- _.
  - cbn [merge_inner] in Hm. destruct reg as [[start end_] p_value].
    destruct region2 as [[start2 end2] p2].
    assert (Hrest : ∀ x, x ∈ rest → x ∈ regions) by (intros x Hx; apply Hsub; by right).
    destruct ((start <=? start2) && (start2 <=? end_) || (start <=? end2) && (end2 <=? end_)).
    + destruct (list_remove (start2, end2, p2) cur) as [cur1|]; [|discriminate].
      cbn [mbind option_bind] in Hm. eapply IH; [done| |exact Hm].
      destruct Hreg as (Hs & Hlo & Hhi & (rs & Hrs & Hrs') & (re & Hre & Hre')).
      cbn [fst snd] in *. repeat split; cbn [fst snd]; try done; try lia.
      * destruct (Z.min_spec start start2) as [[_ ->]|[_ ->]]; [by exists rs|].
        exists (start2, end2, p2). split; [apply Hsub; by left|done].
      * destruct (Z.max_spec end_ end2) as [[_ ->]|[_ ->]]; [|by exists re].
        exists (start2, end2, p2). split; [apply Hsub; by left|done].
    + by eapply IH.
Qed.

Lemma merge_outer_widens (regions : list (Z * Z * score)) (fuel i : nat)
    (cur merged out : list (Z * Z * score)) :
  (∀ x, x ∈ cur → x ∈ regions) →
  Forall (λ r', ∃ r, r ∈ regions ∧ widened_from regions r' r) merged →
  merge_outer fuel i cur merged = Some out →
  Forall (λ r', ∃ r, r ∈ regions ∧ widened_from regions r' r) out.
Proof.
  revert i cur merged. induction fuel as [|fuel IH]; intros i cur merged Hsub Hmerged Hout.
  - cbn [merge_outer] in Hout. destruct (cur !! i); [discriminate|]. by injection Hout as <-.
  - cbn [merge_outer] in Hout. destruct (cur !! i) as [reg|] eqn:Hi.
    2:{ by injection Hout as <-. }
    destruct (merge_inner reg cur cur) as [[reg' cur']|] eqn:Hm; [|discriminate].
    cbn [mbind option_bind] in Hout.
    assert (Hreg : reg ∈ regions) by (apply Hsub; by eapply list_elem_of_lookup_2).
    eapply IH; [| |exact Hout].
    + intros x Hx. apply Hsub. by eapply merge_inner_subset.
    + apply Forall_app. split; [done|]. constructor; [|done].
      exists reg. split; [done|].
      eapply (merge_inner_widens regions cur cur cur' reg reg reg'); [done| |done].
      repeat split; try lia; by exists reg.
Qed.

Lemma merge_outer_extends (fuel i : nat) (cur merged out : list (Z * Z * score)) :
  merge_outer fuel i cur merged = Some out → (length merged ≤ length out)%nat.
Proof.
  revert i cur merged. induction fuel as [|fuel IH]; intros i cur merged Hout.
  - cbn [merge_outer] in Hout. destruct (cur !! i); [discriminate|]. by injection Hout as <-.
  - cbn [merge_outer] in Hout. destruct (cur !! i) as [reg|].
    2:{ by injection Hout as <-. }
    destruct (merge_inner reg cur cur) as [[reg' cur']|]; [|discriminate].
    cbn [mbind option_bind] in Hout. apply IH in Hout. rewrite length_app in Hout.
    simpl in Hout. lia.
Qed.

(** Every region output for a key is one of its regions widened, and a
    key with regions has an output. *)
Lemma merge_key_widens (regions out : list (Z * Z * score)) :
  merge_key regions = Some out →
  Forall (λ r', ∃ r, r ∈ regions ∧ widened_from regions r' r) out
  ∧ (regions ≠ [] → out ≠ []).
Proof.
  unfold merge_key. intros Hout. split.
  - by eapply (merge_outer_widens regions); [| |exact Hout].
  - intros Hne. destruct regions as [|reg regions]; [done|].
    cbn [length merge_outer lookup list_lookup] in Hout.
    destruct (merge_inner reg (reg :: regions) (reg :: regions)) as [[reg' cur']|];
      [|discriminate].
    cbn [mbind option_bind] in Hout. apply merge_outer_extends in Hout.
    destruct out; [simpl in Hout; lia|done].
Qed.

Lemma dict_append_elem (k k' : string * list string) (r x : Z * Z * score)
    (d : list (string * list string * list (Z * Z * score))) (l : list (Z * Z * score)) :
  (k', l) ∈ dict_append k r d → x ∈ l →
  (∃ l0, (k', l0) ∈ d ∧ x ∈ l0) ∨ (k' = k ∧ x = r).
Proof.
  induction d as [|[k0 l0] d IH]; cbn [dict_append]; intros Hin Hx.
  - apply list_elem_of_singleton in Hin. injection Hin as -> ->.
    apply list_elem_of_singleton in Hx. by right.
  - destruct (decide (k = k0)) as [->|Hne].
    + apply elem_of_cons in Hin as [Heq|Hin].
      * injection Heq as -> ->. apply elem_of_app in Hx as [Hx|Hx].
        -- left. exists l0. split; [by left|done].
        -- apply list_elem_of_singleton in Hx. by right.
      * left. exists l. split; [by right|done].
    + apply elem_of_cons in Hin as [Heq|Hin].
      * injection Heq as -> ->. left. exists l0. split; [by left|done].
      * destruct (IH Hin Hx) as [(l1 & Hl1 & Hx1)|Hr]; [|by right].
        left. exists l1. split; [by right|done].
Qed.

(** Every region gathered under a key is the region of a raw call with
    that recombinant and those parents. *)
Lemma gather_elem (raw : list (raw_call score)) (k : string * list string)
    (l : list (Z * Z * score)) (x : Z * Z * score) :
  (k, l) ∈ gather raw → x ∈ l →
  ∃ c, c ∈ raw ∧ k = (rc_rec c, sorted_names (rc_parents c))
    ∧ x = (rc_start c, rc_end c, rc_score c).
Proof.
  unfold gather.
  assert (Hgen : ∀ d,
    (k, l) ∈ foldl (λ d bp, dict_append (rc_rec bp, sorted_names (rc_parents bp))
                              (rc_start bp, rc_end bp, rc_score bp) d) d raw →
    x ∈ l →
    (∃ l0, (k, l0) ∈ d ∧ x ∈ l0)
    ∨ ∃ c, c ∈ raw ∧ k = (rc_rec c, sorted_names (rc_parents c))
        ∧ x = (rc_start c, rc_end c, rc_score c)).
  { induction raw as [|c raw IH]; intros d Hin Hx; [left; by exists l|].
    cbn [foldl] in Hin. destruct (IH _ Hin Hx) as [(l0 & Hl0 & Hx0)|(c' & Hc' & Hk & Hr)].
    - destruct (dict_append_elem _ _ _ _ _ _ Hl0 Hx0) as [Hd|[-> ->]]; [by left|].
      right. exists c. split; [by left|done].
    - right. exists c'. split; [by right|done]. }
  intros Hin Hx. destruct (Hgen [] Hin Hx) as [(l0 & Hl0 & _)|Hc]; [|done].
  by apply elem_of_nil in Hl0.
Qed.

(** X23.  Every region [merge_breakpoints] returns has the recombinant,
    the sorted parents and the score of one of the raw calls, and an
    interval that contains the interval of that call. *)
Theorem merge_breakpoints_widens (raw out : list (raw_call score)) :
  merge_breakpoints raw = Some out →
  Forall (λ c', ∃ c, c ∈ raw
            ∧ rc_rec c' = rc_rec c
            ∧ rc_parents c' = sorted_names (rc_parents c)
            ∧ rc_score c' = rc_score c
            ∧ rc_start c' ≤ rc_start c ∧ rc_end c ≤ rc_end c') out.
Proof.
  unfold merge_breakpoints. intros Hm.
  destruct (mapM merge_entry (gather raw)) as [per_key|] eqn:Hmap; [|discriminate].
  cbn [mbind option_bind] in Hm. injection Hm as <-.
  apply mapM_Some in Hmap. apply Forall_forall. intros c' Hc'.
  apply list_elem_of_In, in_concat in Hc' as (calls & Hcalls & Hc').
  apply list_elem_of_In in Hcalls, Hc'.
  apply list_elem_of_lookup in Hcalls as [i Hi].
  destruct (Forall2_lookup_r _ _ _ _ _ Hmap Hi) as ([k regions] & Hentry & Hme).
  unfold merge_entry in Hme. cbn [fst snd] in Hme.
  destruct (merge_key regions) as [merged|] eqn:Hmerged; [|discriminate].
  cbn [mbind option_bind] in Hme. injection Hme as <-.
  apply list_elem_of_fmap in Hc' as (r' & -> & Hr').
  apply merge_key_widens in Hmerged as [Hw _].
  rewrite Forall_forall in Hw. destruct (Hw r' Hr') as (r & Hr & Hs & Hlo & Hhi & _).
  apply list_elem_of_lookup_2 in Hentry.
  destruct (gather_elem raw k regions r Hentry Hr) as (c & Hc & -> & ->).
  exists c. unfold output_region. cbn [rc_rec rc_parents rc_score rc_start rc_end fst snd] in *.
  done.
Qed.

(** X21.  [merge_breakpoints] never raises: every region the inner loop
    removes is still in the list ([list.remove] finds it), and the loops
    end. *)
Theorem merge_breakpoints_never_raises (raw : list (raw_call score)) :
  ∃ out, merge_breakpoints raw = Some out.
Proof.
  unfold merge_breakpoints.
  assert (Hsome : is_Some (mapM merge_entry (gather raw))).
  { apply mapM_is_Some, Forall_forall. intros entry _. unfold merge_entry. simpl.
    destruct (merge_key_total (entry.2)) as [merged ->]. by eexists. }
  destruct Hsome as [per_key ->]. by eexists.
Qed.

(** X22.  Of the regions of one key, each with its start not after its
    end, at most half (rounded up) are output: every region the outer loop
    visits removes itself from the list, and the iterator then skips the
    region that follows. *)
Theorem merge_key_outputs_at_most_half (regions out : list (Z * Z * score)) :
  Forall well_formed regions →
  merge_key regions = Some out →
  (2 * length out ≤ length regions + 1)%nat.
Proof.
  intros Hwf Hout. apply merge_outer_length in Hout; [|done]. simpl in Hout. lia.
Qed.
End MergeProps.

(** Three disjoint intervals of one key: two regions are output. *)
Lemma merge_key_outputs_at_most_half_witness :
  (Forall well_formed [(1, 2, (5 # 1)%Q); (5, 6, (7 # 1)%Q); (9, 10, (8 # 1)%Q)]
   ∧ merge_key [(1, 2, (5 # 1)%Q); (5, 6, (7 # 1)%Q); (9, 10, (8 # 1)%Q)]
     = Some [(1, 2, (5 # 1)%Q); (9, 10, (8 # 1)%Q)])
  ∧ (2 * length [(1, 2, (5 # 1)%Q); (9, 10, (8 # 1)%Q)]
     ≤ length [(1, 2, (5 # 1)%Q); (5, 6, (7 # 1)%Q); (9, 10, (8 # 1)%Q)] + 1)%nat.
Proof.
  assert (Hwf : Forall well_formed
                  [(1, 2, (5 # 1)%Q); (5, 6, (7 # 1)%Q); (9, 10, (8 # 1)%Q)]).
  { repeat constructor; unfold well_formed; simpl; lia. }
  assert (Hm : merge_key [(1, 2, (5 # 1)%Q); (5, 6, (7 # 1)%Q); (9, 10, (8 # 1)%Q)]
               = Some [(1, 2, (5 # 1)%Q); (9, 10, (8 # 1)%Q)]).
  { vm_compute. reflexivity. }
  split; [by split|].
  exact (merge_key_outputs_at_most_half _ _ Hwf Hm).
Defined.

(** The overlapping calls of the source's example, with a third call. *)
Lemma merge_breakpoints_widens_witness :
  merge_breakpoints
    [ RawCall "A" ["B"; "C"] 1 5 (5 # 1)%Q; RawCall "A" ["C"; "B"] 3 7 (6 # 1)%Q;
      RawCall "A" ["B"; "C"] 9 10 (7 # 1)%Q ]%string
  = Some [ RawCall "A" ["B"; "C"] 1 7 (5 # 1)%Q ]%string
  ∧ Forall (λ c', ∃ c,
              c ∈ [ RawCall "A" ["B"; "C"] 1 5 (5 # 1)%Q; RawCall "A" ["C"; "B"] 3 7 (6 # 1)%Q;
                    RawCall "A" ["B"; "C"] 9 10 (7 # 1)%Q ]%string
              ∧ rc_rec c' = rc_rec c
              ∧ rc_parents c' = sorted_names (rc_parents c)
              ∧ rc_score c' = rc_score c
              ∧ rc_start c' ≤ rc_start c ∧ rc_end c ≤ rc_end c')
      [ RawCall "A" ["B"; "C"] 1 7 (5 # 1)%Q ]%string.
Proof.
  assert (Hm : merge_breakpoints
    [ RawCall "A" ["B"; "C"] 1 5 (5 # 1)%Q; RawCall "A" ["C"; "B"] 3 7 (6 # 1)%Q;
      RawCall "A" ["B"; "C"] 9 10 (7 # 1)%Q ]%string
    = Some [ RawCall "A" ["B"; "C"] 1 7 (5 # 1)%Q ]%string).
  { vm_compute. reflexivity. }
  split; [exact Hm|]. exact (merge_breakpoints_widens _ _ Hm).
Defined.

(** One call, with its parents in either order. *)
Lemma merge_breakpoints_parent_order_witness :
  Forall2 same_call [ RawCall "A" ["B"; "C"] 1 5 (5 # 1)%Q ]%string
                    [ RawCall "A" ["C"; "B"] 1 5 (5 # 1)%Q ]%string
  ∧ merge_breakpoints [ RawCall "A" ["B"; "C"] 1 5 (5 # 1)%Q ]%string
    = merge_breakpoints [ RawCall "A" ["C"; "B"] 1 5 (5 # 1)%Q ]%string.
Proof.
  assert (Hs : Forall2 same_call [ RawCall "A" ["B"; "C"] 1 5 (5 # 1)%Q ]%string
                                 [ RawCall "A" ["C"; "B"] 1 5 (5 # 1)%Q ]%string).
  { constructor; [|constructor]. unfold same_call. simpl.
    split; [reflexivity|]. split; [reflexivity|]. split; [reflexivity|].
    split; [reflexivity|]. right. by exists "B"%string, "C"%string. }
  split; [exact Hs|]. exact (merge_breakpoints_parent_order _ _ Hs).
Defined.

(** ** The width of the intervals *)

Section IntervalProps.
Context `{Numerics}.

Lemma widen_cond_true (z : list float) (peak s : Z) :
  widen_cond z peak s = Some true → peak - s > 0.
Proof.
  unfold widen_cond. destruct (peak - s >? 0) eqn:Hg; [|discriminate].
  intros _. rewrite Z.gtb_ltb in Hg. apply Z.ltb_lt in Hg. lia.
Qed.

Lemma search_loop_range (fuel : nat) (z : list float) (peak s r : Z) :
  search_loop fuel z peak s = Some r → s ≤ r ∧ (r = s ∨ r ≤ peak).
Proof.
  revert s. induction fuel as [|fuel IH]; intros s Hr; [discriminate|].
  cbn [search_loop] in Hr.
  destruct (widen_cond z peak s) as [[|]|] eqn:Hc; [| |discriminate];
    cbn [mbind option_bind] in Hr.
  - apply widen_cond_true in Hc. apply IH in Hr. lia.
  - injection Hr as <-. lia.
Qed.

(** X15.  The interval reported for a peak [p >= 1] is [win_size + r]
    wide for a radius [1 <= r <= p]; it contains [p, p + win_size] and
    does not start before column 0. *)
Theorem breakpoint_interval_width (z : list float) (win_size peak start end_ : Z) :
  1 ≤ peak →
  breakpoint_interval z win_size peak = Some (start, end_) →
  ∃ r, 1 ≤ r ≤ peak ∧ end_ - start = win_size + r
    ∧ 0 ≤ start ≤ peak ∧ peak + win_size ≤ end_.
Proof.
  intros Hp Hb. unfold breakpoint_interval, final_search_win_size in Hb.
  destruct (search_loop (S (Z.to_nat peak)) z peak 1) as [r|] eqn:Hr; [|discriminate].
  cbn [mbind option_bind] in Hb. apply search_loop_range in Hr.
  destruct (py_index z (peak + r)) as [zr|]; [|discriminate].
  destruct (py_index z (peak - r)) as [zl|]; [|discriminate].
  cbn [mbind option_bind] in Hb. exists r.
  destruct (f_gt zr zl); injection Hb as <- <-; lia.
Qed.
End IntervalProps.

(** The peak at index 3 of a vector of 7 values, with windows of 100
    columns. *)
Lemma breakpoint_interval_width_witness :
  (1 ≤ 3 ∧ @breakpoint_interval exact_numerics [0; 1; 5; 10; 4; 1; 0]%Q 100 3 = Some (1, 103))
  ∧ ∃ r, 1 ≤ r ≤ 3 ∧ 103 - 1 = 100 + r ∧ 0 ≤ 1 ≤ 3 ∧ 3 + 100 ≤ 103.
Proof.
  assert (Hb : @breakpoint_interval exact_numerics [0; 1; 5; 10; 4; 1; 0]%Q 100 3 = Some (1, 103)).
  { vm_compute. reflexivity. }
  split; [split; [lia|exact Hb]|].
  exact (@breakpoint_interval_width exact_numerics _ 100 3 1 103 ltac:(lia) Hb).
Defined.

(** ** The recombinant, again *)

Section IdentifyExtra.
Context `{Distances}.

Lemma identify_recombinant_pop (trp : Triplet) (aln_pos : Z * Z)
    (rec_name : string) (parents : list string) :
  identify_recombinant trp aln_pos = Some (rec_name, parents) →
  ∃ idx, names trp !! idx = Some rec_name ∧ parents = delete idx (names trp).
Proof.
  unfold identify_recombinant. intros Hi. bind_inv Hi. injection Hi as <- <-.
  by eexists.
Qed.

(** X17.  The recombinant and the parents returned are the names of the
    triplet, each once: nothing is lost, nothing is invented. *)
Theorem identify_recombinant_partition (trp : Triplet) (aln_pos : Z * Z)
    (rec_name : string) (parents : list string) :
  identify_recombinant trp aln_pos = Some (rec_name, parents) →
  names trp ≡ₚ rec_name :: parents.
Proof.
  intros Hi. apply identify_recombinant_pop in Hi as (idx & Hidx & ->).
  by apply delete_Permutation.
Qed.

Lemma distance_lists_length (f : nat → option (list dist)) (n : nat)
    (l : list (list dist)) :
  mapM f (seq 0 n) = Some l → length l = n.
Proof. intros Hl. apply length_mapM in Hl. by rewrite length_seq in Hl. Qed.

(** X18.  In a triplet of three names, the first sequence whose upstream
    or downstream distances are all equal is returned as the recombinant,
    whatever the distances of the other sequences are. *)
Theorem degenerate_sequence_is_recombinant (trp : Triplet) (aln_pos : Z * Z)
    (up down : list (list dist)) (i : nat) (u d : list dist) :
  length (names trp) = 3%nat →
  upstream_dists trp aln_pos = Some up →
  downstream_dists trp aln_pos = Some down →
  up !! i = Some u → down !! i = Some d →
  all_items_equal u || all_items_equal d = true →
  (∀ j uj dj, (j < i)%nat → up !! j = Some uj → down !! j = Some dj →
     all_items_equal uj || all_items_equal dj = false) →
  ∃ rec_name, names trp !! i = Some rec_name
    ∧ identify_recombinant trp aln_pos = Some (rec_name, delete i (names trp)).
Proof.
  intros Hn Hup Hdown Hu Hd Hdeg Hfirst.
  assert (Hlu : length up = 3%nat).
  { unfold upstream_dists in Hup. rewrite Hn in Hup. by apply distance_lists_length in Hup. }
  assert (Hld : length down = 3%nat).
  { unfold downstream_dists in Hdown. rewrite Hn in Hdown.
    by apply distance_lists_length in Hdown. }
  destruct up as [|u0 [|u1 [|u2 [|]]]]; try discriminate.
  destruct down as [|d0 [|d1 [|d2 [|]]]]; try discriminate.
  destruct (names trp) as [|n0 [|n1 [|n2 [|]]]] eqn:Hnames; try discriminate.
  unfold identify_recombinant, coefficients. rewrite Hup, Hdown, Hnames.
  cbn [mbind option_bind]. unfold r_coeff. cbn [lookup list_lookup mbind option_bind].
  destruct i as [|[|[|i]]]; cbn [lookup list_lookup] in Hu, Hd; simplify_eq.
  - rewrite Hdeg. by eexists.
  - rewrite (Hfirst 0%nat u0 d0) by (done || lia). rewrite Hdeg. by eexists.
  - rewrite (Hfirst 0%nat u0 d0), (Hfirst 1%nat u1 d1) by (done || lia).
    rewrite Hdeg. by eexists.
Qed.

(** X19.  For three identical sequences the first name is the recombinant,
    for every breakpoint interval and every distance. *)
Theorem identical_sequences_first_is_recombinant (s : list ascii)
    (n0 n1 n2 : string) (aln_pos : Z * Z) :
  identify_recombinant {| names := [n0; n1; n2]; sequences := [s; s; s] |} aln_pos
  = Some (n0, [n1; n2]).
Proof.
  set (trp := {| names := [n0; n1; n2]; sequences := [s; s; s] |}).
  set (u := jc_distance (py_slice s 0 (aln_pos.1)) (py_slice s 0 (aln_pos.1))).
  set (v := jc_distance (py_slice s (aln_pos.2) (Z.of_nat (length s)))
                        (py_slice s (aln_pos.2) (Z.of_nat (length s)))).
  assert (Hup : upstream_dists trp aln_pos = Some [[u; u]; [u; u]; [u; u]]) by reflexivity.
  assert (Hdown : downstream_dists trp aln_pos = Some [[v; v]; [v; v]; [v; v]])
    by reflexivity.
  unfold identify_recombinant, coefficients. rewrite Hup, Hdown.
  cbn [mbind option_bind]. unfold r_coeff. cbn [lookup list_lookup mbind option_bind].
  rewrite all_items_equal_pair. reflexivity.
Qed.
End IdentifyExtra.

(** A triplet read off the mosaic triplet. *)
Lemma identify_recombinant_partition_witness :
  @identify_recombinant site_distances mosaic_triplet (4, 6)
  = Some ("A", ["B"; "C"])%string
  ∧ names mosaic_triplet ≡ₚ ("A" :: ["B"; "C"])%string.
Proof.
  assert (Hi : @identify_recombinant site_distances mosaic_triplet (4, 6)
               = Some ("A", ["B"; "C"])%string) by reflexivity.
  split; [exact Hi|].
  exact (@identify_recombinant_partition site_distances _ _ _ _ Hi).
Defined.

(** The second sequence is the first degenerate one. *)
Lemma degenerate_sequence_is_recombinant_witness :
  (length (names degenerate_triplet) = 3%nat
   ∧ @upstream_dists site_distances degenerate_triplet (4, 6)
     = Some [[1; 2]; [1; 1]; [2; 1]]
   ∧ @downstream_dists site_distances degenerate_triplet (4, 6)
     = Some [[3; 1]; [3; 4]; [1; 4]]
   ∧ [[1; 2]; [1; 1]; [2; 1]] !! 1%nat = Some [1; 1]
   ∧ [[3; 1]; [3; 4]; [1; 4]] !! 1%nat = Some [3; 4]
   ∧ all_items_equal [1; 1] || all_items_equal [3; 4] = true
   ∧ (∀ j uj dj, (j < 1)%nat →
        [[1; 2]; [1; 1]; [2; 1]] !! j = Some uj →
        [[3; 1]; [3; 4]; [1; 4]] !! j = Some dj →
        all_items_equal uj || all_items_equal dj = false))
  ∧ ∃ rec_name, names degenerate_triplet !! 1%nat = Some rec_name
      ∧ @identify_recombinant site_distances degenerate_triplet (4, 6)
        = Some (rec_name, delete 1%nat (names degenerate_triplet)).
Proof.
  assert (Hfirst : ∀ j (uj dj : list Z), (j < 1)%nat →
            [[1; 2]; [1; 1]; [2; 1]] !! j = Some uj →
            [[3; 1]; [3; 4]; [1; 4]] !! j = Some dj →
            all_items_equal uj || all_items_equal dj = false).
  { intros j uj dj Hj Hu Hd. destruct j as [|j]; [|lia].
    injection Hu as <-. injection Hd as <-. reflexivity. }
  split.
  - split; [reflexivity|]. split; [reflexivity|]. split; [reflexivity|].
    split; [reflexivity|]. split; [reflexivity|]. split; [reflexivity|exact Hfirst].
  - exact (@degenerate_sequence_is_recombinant site_distances degenerate_triplet (4, 6)
             [[1; 2]; [1; 1]; [2; 1]] [[3; 1]; [3; 4]; [1; 4]] 1%nat [1; 1] [3; 4]
             eq_refl eq_refl eq_refl eq_refl eq_refl eq_refl Hfirst).
Defined.

(** ** Columns the identification reads *)

Lemma py_slice_upstream {A} (r r' : list A) (p0 : Z) :
  length r = length r' → 0 ≤ p0 →
  take (Z.to_nat p0) r = take (Z.to_nat p0) r' →
  py_slice r 0 p0 = py_slice r' 0 p0.
Proof.
  intros Hlen Hp Ht. unfold py_slice, len. rewrite <- Hlen.
  rewrite !slice_bound_nonneg by lia.
  replace (Z.to_nat (Z.min 0 (Z.of_nat (length r)))) with 0%nat by lia.
  rewrite !drop_0.
  set (k := Z.to_nat (Z.min p0 (Z.of_nat (length r)) - Z.min 0 (Z.of_nat (length r)))).
  replace k with (k `min` Z.to_nat p0)%nat by lia.
  by rewrite <- !take_take, Ht.
Qed.

Lemma py_slice_downstream {A} (r r' : list A) (p1 hi : Z) :
  length r = length r' → 0 ≤ p1 →
  drop (Z.to_nat p1) r = drop (Z.to_nat p1) r' →
  py_slice r p1 hi = py_slice r' p1 hi.
Proof.
  intros Hlen Hp Hd. unfold py_slice, len. rewrite <- Hlen.
  rewrite (slice_bound_nonneg _ p1) by lia.
  set (k := Z.to_nat _). f_equal.
  destruct (decide (p1 ≤ Z.of_nat (length r))).
  - by replace (Z.to_nat (Z.min p1 (Z.of_nat (length r)))) with (Z.to_nat p1) by lia.
  - by rewrite !drop_ge by lia.
Qed.

Section IdentifyFrame.
Context `{Distances}.

Lemma distances_of_agree (trp trp' : Triplet) (lo hi : Z) (i : nat) :
  names trp = names trp' →
  Forall2 (λ r r', py_slice r lo hi = py_slice r' lo hi) (sequences trp) (sequences trp') →
  distances_of trp lo hi i = distances_of trp' lo hi i.
Proof.
  intros Hn Hs. unfold distances_of. rewrite Hn. apply mapM_ext. intros j.
  destruct (sequences trp !! i) as [si|] eqn:Hi.
  - destruct (Forall2_lookup_l _ _ _ _ _ Hs Hi) as (si' & -> & Hsi).
    cbn [mbind option_bind].
    destruct (sequences trp !! j) as [sj|] eqn:Hj.
    + destruct (Forall2_lookup_l _ _ _ _ _ Hs Hj) as (sj' & -> & Hsj).
      cbn [mbind option_bind]. by rewrite Hsi, Hsj.
    + assert (sequences trp' !! j = None) as ->; [|done].
      apply lookup_ge_None. apply lookup_ge_None in Hj.
      by rewrite <- (Forall2_length _ _ _ Hs).
  - assert (sequences trp' !! i = None) as ->; [|done].
    apply lookup_ge_None. apply lookup_ge_None in Hi.
    by rewrite <- (Forall2_length _ _ _ Hs).
Qed.

(** X20.  [identify_recombinant] does not read the columns inside the
    breakpoint interval: two triplets with the same names whose rows agree
    before [aln_pos[0]] and from [aln_pos[1]] on give the same answer. *)
Theorem identify_recombinant_ignores_interval (trp trp' : Triplet) (aln_pos : Z * Z) :
  names trp = names trp' →
  0 ≤ aln_pos.1 → 0 ≤ aln_pos.2 →
  Forall2 (λ r r', length r = length r'
                   ∧ take (Z.to_nat (aln_pos.1)) r = take (Z.to_nat (aln_pos.1)) r'
                   ∧ drop (Z.to_nat (aln_pos.2)) r = drop (Z.to_nat (aln_pos.2)) r')
    (sequences trp) (sequences trp') →
  identify_recombinant trp aln_pos = identify_recombinant trp' aln_pos.
Proof.
  intros Hn H0 H1 Hs.
  assert (Hcols : ncols (sequences trp) = ncols (sequences trp')).
  { destruct Hs as [|r r' ? ? (Hl & _) _]; [done|exact Hl]. }
  unfold identify_recombinant, coefficients, upstream_dists, downstream_dists.
  rewrite <- Hn, <- Hcols.
  rewrite (mapM_ext (distances_of trp 0 (aln_pos.1)) (distances_of trp' 0 (aln_pos.1))).
  2:{ intros i. apply distances_of_agree; [done|].
      eapply Forall2_impl; [exact Hs|]. intros r r' (Hl & Ht & _).
      by apply py_slice_upstream. }
  rewrite (mapM_ext (distances_of trp (aln_pos.2) _)
             (distances_of trp' (aln_pos.2) (Z.of_nat (ncols (sequences trp))))).
  2:{ intros i. apply distances_of_agree; [done|].
      eapply Forall2_impl; [exact Hs|]. intros r r' (Hl & _ & Hd).
      by apply py_slice_downstream. }
  reflexivity.
Qed.
End IdentifyFrame.

(** The mosaic triplet, and the same with other symbols in columns 4, 5. *)
Lemma identify_recombinant_ignores_interval_witness :
  (names mosaic_triplet = names mosaic_triplet_changed
   ∧ 0 ≤ ((4, 6) : Z * Z).1 ∧ 0 ≤ ((4, 6) : Z * Z).2
   ∧ Forall2 (λ r r', length r = length r'
                      ∧ take (Z.to_nat ((4, 6) : Z * Z).1) r
                        = take (Z.to_nat ((4, 6) : Z * Z).1) r'
                      ∧ drop (Z.to_nat ((4, 6) : Z * Z).2) r
                        = drop (Z.to_nat ((4, 6) : Z * Z).2) r')
       (sequences mosaic_triplet) (sequences mosaic_triplet_changed))
  ∧ @identify_recombinant site_distances mosaic_triplet (4, 6)
    = @identify_recombinant site_distances mosaic_triplet_changed (4, 6).
Proof.
  assert (Hs : Forall2 (λ r r', length r = length r'
                      ∧ take (Z.to_nat ((4, 6) : Z * Z).1) r
                        = take (Z.to_nat ((4, 6) : Z * Z).1) r'
                      ∧ drop (Z.to_nat ((4, 6) : Z * Z).2) r
                        = drop (Z.to_nat ((4, 6) : Z * Z).2) r')
       (sequences mosaic_triplet) (sequences mosaic_triplet_changed)).
  { repeat constructor. }
  split.
  - split; [reflexivity|]. split; [simpl; lia|]. split; [simpl; lia|exact Hs].
  - apply (@identify_recombinant_ignores_interval site_distances mosaic_triplet
             mosaic_triplet_changed (4, 6)); [reflexivity | simpl; lia | simpl; lia | exact Hs].
Defined.

(** ** The raw results of a window *)

Section RecordPeaks.
Context `{Numerics} `{Distances}.

Lemma breakpoint_interval_wider (z : list float) (win_size peak start end_ : Z) :
  breakpoint_interval z win_size peak = Some (start, end_) →
  end_ - start > win_size.
Proof.
  intros Hb. unfold breakpoint_interval, final_search_win_size in Hb.
  destruct (search_loop (S (Z.to_nat peak)) z peak 1) as [r|] eqn:Hr; [|discriminate].
  cbn [mbind option_bind] in Hb. apply search_loop_range in Hr.
  destruct (py_index z (peak + r)) as [zr|]; [|discriminate].
  destruct (py_index z (peak - r)) as [zl|]; [|discriminate].
  cbn [mbind option_bind] in Hb.
  destruct (f_gt zr zl); injection Hb as <- <-; lia.
Qed.

(** X16.  The loop over the peaks keeps the raw results it was given and
    appends one call per peak; each new call has an interval wider than
    [win_size], and its recombinant and parents are the names of the
    triplet. *)
Theorem record_peaks_appends (win_size : Z) (trp : Triplet) (z : list float)
    (peaks : list Z) (raw raw' : list (raw_call float)) :
  record_peaks win_size trp z peaks raw = Some raw' →
  ∃ new, raw' = raw ++ new ∧ length new = length peaks
    ∧ Forall (λ c, rc_end c - rc_start c > win_size
                   ∧ names trp ≡ₚ rc_rec c :: rc_parents c) new.
Proof.
  revert raw. induction peaks as [|peak peaks IH]; intros raw Hr.
  - injection Hr as <-. exists []. by rewrite app_nil_r.
  - cbn [record_peaks] in Hr.
    destruct (breakpoint_interval z win_size peak) as [[start end_]|] eqn:Hb; [|discriminate].
    cbn [mbind option_bind] in Hr.
    destruct (identify_recombinant trp (start, end_)) as [[rec_name parents]|] eqn:Hi;
      [|discriminate].
    cbn [mbind option_bind] in Hr.
    destruct (py_index z peak) as [zp|]; [|discriminate].
    cbn [mbind option_bind fst snd] in Hr.
    apply IH in Hr as (new & -> & Hlen & Hnew).
    exists (RawCall rec_name parents start end_ (f_abs zp) :: new).
    split; [by rewrite <- app_assoc|]. split; [simpl; lia|].
    constructor; [|done]. cbn [rc_end rc_start rc_rec rc_parents]. split.
    + by eapply breakpoint_interval_wider.
    + apply identify_recombinant_pop in Hi as (idx & Hidx & ->).
      by apply delete_Permutation.
Qed.
End RecordPeaks.

(** One peak on the mosaic triplet, after one earlier call. *)
Lemma record_peaks_appends_witness :
  @record_peaks exact_numerics site_distances 2 mosaic_triplet [0; 1; 5; 10; 4; 1; 0]%Q [3]
    [RawCall "C" ["A"; "B"] 0 3 (1 # 1)%Q]%string
  = Some [RawCall "C" ["A"; "B"] 0 3 (1 # 1)%Q; RawCall "B" ["A"; "C"] 1 5 (10 # 1)%Q]%string
  ∧ ∃ new,
      [RawCall "C" ["A"; "B"] 0 3 (1 # 1)%Q; RawCall "B" ["A"; "C"] 1 5 (10 # 1)%Q]%string
      = [RawCall "C" ["A"; "B"] 0 3 (1 # 1)%Q]%string ++ new
      ∧ length new = length [3]
      ∧ Forall (λ c, rc_end c - rc_start c > 2
                     ∧ names mosaic_triplet ≡ₚ rc_rec c :: rc_parents c) new.
Proof.
  assert (Hr : @record_peaks exact_numerics site_distances 2 mosaic_triplet [0; 1; 5; 10; 4; 1; 0]%Q [3]
    [RawCall "C" ["A"; "B"] 0 3 (1 # 1)%Q]%string
  = Some [RawCall "C" ["A"; "B"] 0 3 (1 # 1)%Q; RawCall "B" ["A"; "C"] 1 5 (10 # 1)%Q]%string).
  { vm_compute. reflexivity. }
  split; [exact Hr|].
  exact (@record_peaks_appends exact_numerics site_distances _ _ _ _ _ _ Hr).
Defined.

(** ** The summary counts *)

(** X10.  [sum_pattern_counts] raises exactly when it is given fewer than
    14 counts; otherwise it returns 9 sums that start with three zeros,
    and the sums do not depend on the count at index 0 nor on anything
    from index 14 on. *)
Theorem sum_pattern_counts_defined (pat_counts : list Z) :
  (sum_pattern_counts pat_counts = None ↔ (length pat_counts < 14)%nat)
  ∧ ∀ sums, sum_pattern_counts pat_counts = Some sums →
      length sums = 9%nat ∧ take 3 sums = [0; 0; 0]
      ∧ ∀ other first last,
          sum_pattern_counts (first :: drop 1 (take 14 pat_counts) ++ last :: other)
          = Some sums.
Proof.
  do 14 (destruct pat_counts as [|? pat_counts];
         [split; [split; [simpl; lia|reflexivity]|discriminate]|]).
  split.
  - split; [discriminate|simpl; lia].
  - intros sums Hs. unfold sum_pattern_counts in Hs.
    cbn [lookup list_lookup mbind option_bind] in Hs. injection Hs as <-.
    split; [reflexivity|]. split; [reflexivity|]. intros other first last.
    reflexivity.
Qed.

(** ** A permutation loop that does not run *)

(** X25.  With [scan_perm_num <= 0] (reachable without [settings], which
    skips validation) the permutation loop does not run: the population is
    empty, the generator is not advanced, and every z-score of the window
    is taken against [np.mean([])] and [np.std([])]. *)
Theorem window_without_permutations `{Numerics} (scan_perm_num : Z)
    (arr : list (list ascii)) (g : rng) (wc : WindowCounts) :
  scan_perm_num ≤ 0 →
  window_counts scan_perm_num arr g = Some wc →
  p_counts wc = [] ∧ sum_p_counts wc = [] ∧ gen_counts wc = g
  ∧ window_zscores wc
    = ((λ v, f_div (f_sub (of_int v) (np_mean [])) (np_std [])) <$> pat_counts wc,
       (λ v, f_div (f_sub (of_int v) (np_mean [])) (np_std [])) <$> sum_pat_counts wc).
Proof.
  intros Hn Hw. unfold window_counts in Hw.
  replace (Z.to_nat scan_perm_num) with 0%nat in Hw by lia.
  cbn [perm_loop] in Hw. bind_inv Hw. cbn [mbind option_bind] in Hw.
  injection Hw as <-. unfold window_zscores, zscores.
  cbn [p_counts sum_p_counts gen_counts pat_counts sum_pat_counts]. done.
Qed.

(** An array of one column, with [scan_perm_num = 0]. *)
Lemma window_without_permutations_witness :
  ∃ wc,
    (0 ≤ 0 ∧ window_counts 0 [ ["A"]; ["A"]; ["C"]; ["C"] ]%char (constant_rng 0) = Some wc)
    ∧ (p_counts wc = [] ∧ sum_p_counts wc = [] ∧ gen_counts wc = constant_rng 0
       ∧ @window_zscores exact_numerics wc
         = ((λ v, @f_div exact_numerics
                    (@f_sub exact_numerics (@of_int exact_numerics v)
                       (@np_mean exact_numerics []))
                    (@np_std exact_numerics [])) <$> pat_counts wc,
            (λ v, @f_div exact_numerics
                    (@f_sub exact_numerics (@of_int exact_numerics v)
                       (@np_mean exact_numerics []))
                    (@np_std exact_numerics [])) <$> sum_pat_counts wc)).
Proof.
  eexists. split.
  - split; [lia|]. vm_compute. reflexivity.
  - apply (@window_without_permutations exact_numerics 0
             [ ["A"]; ["A"]; ["C"]; ["C"] ]%char (constant_rng 0)); [lia|].
    vm_compute. reflexivity.
Defined.
